(** * Transport framing, reconnection and envelope encryption

    A shallow embedding of [TransportManager] (length-prefixed frames over a
    TLS socket, reconnection with exponential backoff) and of
    [CryptoManager] (per-peer sessions, envelope encryption), with the
    properties of the design document checked against them.

    Conventions of the embedding:
    - a Node [Buffer] is a [list byte];
    - JavaScript numbers that the code keeps integral are [Z];
    - a [throw] is the [Throw] case of [result];
    - values that the code draws from [Date.now], [Math.random] and
      [crypto.randomBytes] are explicit arguments;
    - [this.emit], [this.logger.*] and [setTimeout] calls are recorded, in
      program order, in a list of [effect]s;
    - Node's [crypto] and [JSON] built-ins are the fields of a [Platform]. *)

From Stdlib Require Import ZArith Lia.
From Stdlib.Strings Require Import Byte Ascii String.
From stdpp Require Import base option list strings gmap.

Local Open Scope Z_scope.
Set Warnings "-register-all,-clear-no-such-hyp".

(** ** Exceptions and results *)

Inductive exn :=
| Error (message : string)      (* [new Error(message)] *)
| RangeError (code : string)    (* thrown by Buffer reads and writes, with its [code] *)
| TypeError (code : string)     (* thrown on an argument of the wrong type *)
| SyntaxError (code : string)   (* thrown by [JSON.parse] *)
| CipherError (code : string).  (* thrown by a decipher, e.g. bad decrypt *)

Inductive result (A : Type) :=
| Ok (a : A)
| Throw (e : exn).
Arguments Ok {A} a.
Arguments Throw {A} e.

Definition rbind {A B} (r : result A) (k : A -> result B) : result B :=
  match r with
  | Ok a => k a
  | Throw e => Throw e
  end.

Notation "x <-! r ; k" := (rbind r (fun x => k))
  (at level 100, r at next level, right associativity, only parsing).

(** ** Node's [Buffer] *)

Module Buf.

Abbreviation Buffer := (list byte).

Definition Z_of_byte (b : byte) : Z := Z.of_N (Byte.to_N b).

Definition byte_of_Z (z : Z) : byte :=
  default x00 (Byte.of_N (Z.to_N (z mod 256))).

Definition ERR_OUT_OF_RANGE : exn := RangeError "ERR_OUT_OF_RANGE".

Definition ERR_BUFFER_OUT_OF_BOUNDS : exn := RangeError "ERR_BUFFER_OUT_OF_BOUNDS".

(** [boundsError(offset, buf.length - width)] of Node's
    [lib/internal/buffer.js], for an integral [offset]: a field of [width]
    bytes that does not fit at the offset is reported as
    [ERR_BUFFER_OUT_OF_BOUNDS] when the buffer is shorter than the field,
    and as [ERR_OUT_OF_RANGE] (of the offset) otherwise. *)
Definition boundsError (b : list byte) (width : nat) : exn :=
  if decide (length b < width)%nat then ERR_BUFFER_OUT_OF_BOUNDS
  else ERR_OUT_OF_RANGE.

(** [Buffer.alloc(n)] *)
Definition alloc (n : nat) : Buffer := replicate n x00.

(** [buf.slice(start, end)]; both ends are clamped to the length. *)
Definition slice (b : Buffer) (start stop : nat) : Buffer :=
  take (stop - start) (drop start b).

(** [source.copy(target, targetStart)]: only the bytes that fit are
    copied. *)
Definition copy (source target : Buffer) (targetStart : nat) : Buffer :=
  list_inserts targetStart source target.

(** [buf.readUInt8(offset)] *)
Definition readUInt8 (b : Buffer) (offset : nat) : result Z :=
  match b !! offset with
  | Some x => Ok (Z_of_byte x)
  | None => Throw (boundsError b 1)
  end.

(** [buf.readUInt16BE(offset)] *)
Definition readUInt16BE (b : Buffer) (offset : nat) : result Z :=
  match b !! offset, b !! (offset + 1)%nat with
  | Some hi, Some lo => Ok (Z_of_byte hi * 2 ^ 8 + Z_of_byte lo)
  | _, _ => Throw (boundsError b 2)
  end.

(** [buf.readUInt32BE(offset)] *)
Definition readUInt32BE (b : Buffer) (offset : nat) : result Z :=
  match b !! offset, b !! (offset + 1)%nat,
        b !! (offset + 2)%nat, b !! (offset + 3)%nat with
  | Some b3, Some b2, Some b1, Some b0 =>
      Ok (Z_of_byte b3 * 2 ^ 24 + Z_of_byte b2 * 2 ^ 16
          + Z_of_byte b1 * 2 ^ 8 + Z_of_byte b0)
  | _, _, _, _ => Throw (boundsError b 4)
  end.

(** The check that every integer write starts with ([checkInt] of Node's
    [lib/internal/buffer.js]): a value outside the range of the field
    throws [ERR_OUT_OF_RANGE], and then a field that does not fit at the
    offset throws the [boundsError]; nothing is truncated or wrapped. *)
Definition checkInt (value max : Z) (b : Buffer) (offset width : nat)
  : result unit :=
  if decide (0 <= value <= max) then
    if decide (offset + width <= length b)%nat then Ok tt
    else Throw (boundsError b width)
  else Throw ERR_OUT_OF_RANGE.

(** [buf.writeUInt8(value, offset)] *)
Definition writeUInt8 (b : Buffer) (value : Z) (offset : nat)
  : result Buffer :=
  _ <-! checkInt value 255 b offset 1;
  Ok (<[offset := byte_of_Z value]> b).

(** [buf.writeUInt16BE(value, offset)] *)
Definition writeUInt16BE (b : Buffer) (value : Z) (offset : nat)
  : result Buffer :=
  _ <-! checkInt value 65535 b offset 2;
  Ok (<[(offset + 1)%nat := byte_of_Z value]>
        (<[offset := byte_of_Z (value / 2 ^ 8)]> b)).

(** [buf.writeUInt32BE(value, offset)] *)
Definition writeUInt32BE (b : Buffer) (value : Z) (offset : nat)
  : result Buffer :=
  _ <-! checkInt value 4294967295 b offset 4;
  Ok (<[(offset + 3)%nat := byte_of_Z value]>
        (<[(offset + 2)%nat := byte_of_Z (value / 2 ^ 8)]>
           (<[(offset + 1)%nat := byte_of_Z (value / 2 ^ 16)]>
              (<[offset := byte_of_Z (value / 2 ^ 24)]> b)))).

End Buf.

(** ** TransportManager *)

Module Transport.
Import Buf.

(** A decoded message, as built by [decodeMessage]. *)
Record Message := {
  msg_type : Z;
  msg_id : Z;
  msg_timestamp : Z;
  msg_data : Buffer;
}.

(** The socket is observed through the chunks handed to [socket.write]. *)
Record Socket := { written : list Buffer }.

(** The fields of a [TransportManager] instance. *)
Record TransportManager := {
  socket : option Socket;
  isConnected : bool;
  reconnectAttempts : Z;
  maxReconnectAttempts : Z;
  reconnectDelay : Z;
  buffer : Buffer;
}.

(** The argument that goes with an event or a log line. *)
Inductive arg :=
| NoArg
| MsgArg (m : Message)
| ErrArg (e : exn)
| NumArg (n : Z).

Inductive effect :=
| Log (level text : string) (a : arg)   (* [this.logger.level(text, a)] *)
| Emit (event : string) (a : arg)       (* [this.emit(event, a)] *)
| SetTimeout (delay : Z).               (* [setTimeout(() => this.connect(), delay)] *)

(** The constructor. *)
Definition new_TransportManager : TransportManager := {|
  socket := None;
  isConnected := false;
  reconnectAttempts := 0;
  maxReconnectAttempts := 5;
  reconnectDelay := 1000;
  buffer := alloc 0;
|}.

(** The state after [connect] has resolved: a fresh socket, the flag set
    and the attempt counter reset. *)
Definition connected (tm : TransportManager) : TransportManager := {|
  socket := Some {| written := [] |};
  isConnected := true;
  reconnectAttempts := 0;
  maxReconnectAttempts := maxReconnectAttempts tm;
  reconnectDelay := reconnectDelay tm;
  buffer := buffer tm;
|}.

Definition set_buffer (tm : TransportManager) (b : Buffer) : TransportManager := {|
  socket := socket tm;
  isConnected := isConnected tm;
  reconnectAttempts := reconnectAttempts tm;
  maxReconnectAttempts := maxReconnectAttempts tm;
  reconnectDelay := reconnectDelay tm;
  buffer := b;
|}.

Definition set_isConnected (tm : TransportManager) (c : bool) : TransportManager := {|
  socket := socket tm;
  isConnected := c;
  reconnectAttempts := reconnectAttempts tm;
  maxReconnectAttempts := maxReconnectAttempts tm;
  reconnectDelay := reconnectDelay tm;
  buffer := buffer tm;
|}.

Definition set_reconnectAttempts (tm : TransportManager) (n : Z) : TransportManager := {|
  socket := socket tm;
  isConnected := isConnected tm;
  reconnectAttempts := n;
  maxReconnectAttempts := maxReconnectAttempts tm;
  reconnectDelay := reconnectDelay tm;
  buffer := buffer tm;
|}.

Definition socket_write (tm : TransportManager) (chunk : Buffer) : TransportManager := {|
  socket := (fun s => {| written := written s ++ [chunk] |}) <$> socket tm;
  isConnected := isConnected tm;
  reconnectAttempts := reconnectAttempts tm;
  maxReconnectAttempts := maxReconnectAttempts tm;
  reconnectDelay := reconnectDelay tm;
  buffer := buffer tm;
|}.

(** [decodeMessage(data)]: the three reads throw on a short buffer, the
    [catch] logs the error of the first read that fails and returns
    [null]. *)
Definition decodeMessage (data : Buffer) : option Message * list effect :=
  let message :=
    type <-! readUInt8 data 0;
    id <-! readUInt32BE data 1;
    timestamp <-! readUInt32BE data 5;
    Ok {| msg_type := type; msg_id := id; msg_timestamp := timestamp;
          msg_data := drop 9 data |} in
  match message with
  | Ok m => (Some m, [])
  | Throw error => (None, [Log "error" "Error decoding message:" (ErrArg error)])
  end.

(** [parseMessage()]: [null] while the buffer holds no complete frame;
    otherwise the frame is cut off the buffer and decoded. *)
Definition parseMessage (tm : TransportManager)
  : result (option Message) * TransportManager * list effect :=
  if decide (length (buffer tm) < 3)%nat then (Ok None, tm, [])
  else
    match readUInt16BE (buffer tm) 0 with
    | Throw e => (Throw e, tm, [])
    | Ok len =>
        if decide (Z.of_nat (length (buffer tm)) < len + 2) then (Ok None, tm, [])
        else
          let message := slice (buffer tm) 2 (Z.to_nat (len + 2)) in
          let tm' := set_buffer tm (drop (Z.to_nat (len + 2)) (buffer tm)) in
          let '(m, log) := decodeMessage message in
          (Ok m, tm', log)
    end.

(** The [switch] of [handleMessage]. *)
Definition route (m : Message) : effect :=
  if decide (msg_type m = 1) then Emit "message:text" (MsgArg m)
  else if decide (msg_type m = 2) then Emit "message:media" (MsgArg m)
  else if decide (msg_type m = 3) then Emit "message:group" (MsgArg m)
  else if decide (msg_type m = 4) then Emit "presence:update" (MsgArg m)
  else if decide (msg_type m = 5) then Emit "typing:indicator" (MsgArg m)
  else if decide (msg_type m = 6) then Emit "receipt:read" (MsgArg m)
  else if decide (msg_type m = 7) then Emit "receipt:delivered" (MsgArg m)
  else if decide (msg_type m = 8) then Emit "heartbeat:response" (MsgArg m)
  else Log "warn" "Unknown message type:" (NumArg (msg_type m)).

(** [handleMessage(message)] *)
Definition handleMessage (m : Message) : list effect :=
  [Log "debug" "Received message:" (MsgArg m); route m].

(** The [while] loop of [handleIncomingData].  [None] stands for a loop
    that needs more than [fuel] iterations. *)
Fixpoint process (fuel : nat) (tm : TransportManager)
  : option (result unit * TransportManager * list effect) :=
  if decide (0 < length (buffer tm))%nat then
    match fuel with
    | O => None
    | S fuel' =>
        match parseMessage tm with
        | (Throw e, tm', log) => Some (Throw e, tm', log)
        | (Ok None, tm', log) => Some (Ok tt, tm', log)
        | (Ok (Some m), tm', log) =>
            match process fuel' tm' with
            | Some (r, tm'', log') => Some (r, tm'', log ++ handleMessage m ++ log')
            | None => None
            end
        end
    end
  else Some (Ok tt, tm, []).

(** [handleIncomingData(data)]: every message taken off the buffer removes
    at least two bytes, so the length of the buffer bounds the loop. *)
Definition handleIncomingData (tm : TransportManager) (data : Buffer)
  : option (TransportManager * list effect) :=
  let tm1 := set_buffer tm (buffer tm ++ data) in
  match process (length (buffer tm1)) tm1 with
  | Some (Ok _, tm2, log) => Some (tm2, log)
  | Some (Throw error, tm2, log) =>
      Some (tm2, log ++ [Log "error" "Error handling incoming data:" (ErrArg error);
                         Emit "transport:error" (ErrArg error)])
  | None => None
  end.

(** [id || this.generateMessageId()]: [null] and [0] are falsy. *)
Definition or_generate (id : option Z) (generated : Z) : Z :=
  match id with
  | Some i => if decide (i = 0) then generated else i
  | None => generated
  end.

(** [sendMessage(type, data, id = null)].  [now] is [Date.now()] and
    [generated] is what [generateMessageId()] returns when it is called. *)
Definition sendMessage (now generated : Z) (tm : TransportManager)
    (type : Z) (data : Buffer) (id : option Z)
  : result Z * TransportManager * list effect :=
  let attempt : result (Z * Buffer) :=
    if negb (isConnected tm) || negb (bool_decide (is_Some (socket tm)))
    then Throw (Error "Not connected to server")
    else
      let messageId := or_generate id generated in
      let timestamp := now / 1000 in
      let messageBuffer := alloc (9 + length data) in
      messageBuffer <-! writeUInt8 messageBuffer type 0;
      messageBuffer <-! writeUInt32BE messageBuffer messageId 1;
      messageBuffer <-! writeUInt32BE messageBuffer timestamp 5;
      let messageBuffer := copy data messageBuffer 9 in
      let lengthBuffer := alloc 2 in
      lengthBuffer <-! writeUInt16BE lengthBuffer (Z.of_nat (length messageBuffer)) 0;
      Ok (messageId, lengthBuffer ++ messageBuffer) in
  match attempt with
  | Ok (messageId, fullMessage) =>
      (Ok messageId, socket_write tm fullMessage,
       [Log "debug" "Sent message:" (NumArg messageId)])
  | Throw error =>
      (Throw error, tm, [Log "error" "Error sending message:" (ErrArg error)])
  end.

(** [attemptReconnect()] *)
Definition attemptReconnect (tm : TransportManager)
  : TransportManager * list effect :=
  if decide (maxReconnectAttempts tm <= reconnectAttempts tm) then
    (tm, [Log "error" "Max reconnection attempts reached" NoArg;
          Emit "transport:max_reconnect_attempts" NoArg])
  else
    let tm' := set_reconnectAttempts tm (reconnectAttempts tm + 1) in
    let delay := reconnectDelay tm' * 2 ^ (reconnectAttempts tm' - 1) in
    (tm', [Log "info" "Attempting reconnection" (NumArg delay); SetTimeout delay]).

(** [handleConnectionError(error)] *)
Definition handleConnectionError (tm : TransportManager) (error : exn)
  : TransportManager * list effect :=
  let tm1 := set_isConnected tm false in
  let '(tm2, log) := attemptReconnect tm1 in
  (tm2, Emit "transport:error" (ErrArg error) :: log).

(** [handleConnectionClose()] *)
Definition handleConnectionClose (tm : TransportManager)
  : TransportManager * list effect :=
  let tm1 := set_isConnected tm false in
  let '(tm2, log) := attemptReconnect tm1 in
  (tm2, Emit "transport:disconnected" NoArg :: log).

(** *** Runs of the handlers *)

(** The socket's ['data'] handler run on successive reads. *)
Fixpoint feed (tm : TransportManager) (chunks : list Buffer)
  : option (TransportManager * list effect) :=
  match chunks with
  | [] => Some (tm, [])
  | chunk :: rest =>
      match handleIncomingData tm chunk with
      | Some (tm1, log1) =>
          match feed tm1 rest with
          | Some (tm2, log2) => Some (tm2, log1 ++ log2)
          | None => None
          end
      | None => None
      end
  end.

(** The messages that reached [handleMessage], read off its first log
    line. *)
Definition received (log : list effect) : list Message :=
  omap (fun e => match e with
                 | Log "debug" "Received message:" (MsgArg m) => Some m
                 | _ => None
                 end) log.

(** The delays of the reconnections scheduled in a log. *)
Definition scheduled (log : list effect) : list Z :=
  omap (fun e => match e with SetTimeout delay => Some delay | _ => None end) log.

(** The events of the socket that end or break the connection.
    [setupSocketHandlers] registers a listener for each of them. *)
Inductive socket_event :=
| SocketError (error : exn)   (* ['error'] *)
| SocketClose                 (* ['close'] *)
| SocketEnd.                  (* ['end'] *)

(** The three listeners of [setupSocketHandlers]: each logs and calls its
    handler, and each handler calls [attemptReconnect]. *)
Definition on_event (tm : TransportManager) (ev : socket_event)
  : TransportManager * list effect :=
  match ev with
  | SocketError error =>
      let '(tm', log) := handleConnectionError tm error in
      (tm', Log "error" "Socket error:" (ErrArg error) :: log)
  | SocketClose =>
      let '(tm', log) := handleConnectionClose tm in
      (tm', Log "warn" "Socket closed" NoArg :: log)
  | SocketEnd =>
      let '(tm', log) := handleConnectionClose tm in
      (tm', Log "warn" "Socket ended" NoArg :: log)
  end.

(** The listeners run on the events of the socket, in the order in which
    the socket emits them. *)
Fixpoint on_events (tm : TransportManager) (evs : list socket_event)
  : TransportManager * list effect :=
  match evs with
  | [] => (tm, [])
  | ev :: rest =>
      let '(tm1, log1) := on_event tm ev in
      let '(tm2, log2) := on_events tm1 rest in
      (tm2, log1 ++ log2)
  end.

(** A failure of the connection: the socket breaks with an error (a
    refused or reset connection, a failed handshake), or the server ends
    the stream. *)
Inductive failure :=
| ConnectionError (error : exn)
| ConnectionEnded.

(** What the socket emits on a failure.  Node destroys the socket after an
    error, and after the end of the stream (the socket is not
    half-open), and a socket that is destroyed emits ['close']: one
    failure is two events, ['error'] or ['end'] and then ['close']. *)
Definition events_of (f : failure) : list socket_event :=
  match f with
  | ConnectionError error => [SocketError error; SocketClose]
  | ConnectionEnded => [SocketEnd; SocketClose]
  end.

Definition on_failure (tm : TransportManager) (f : failure)
  : TransportManager * list effect :=
  on_events tm (events_of f).

(** Consecutive failures, with no successful [connect] in between; the log
    of each failure is kept apart. *)
Fixpoint on_failures (tm : TransportManager) (fs : list failure)
  : TransportManager * list (list effect) :=
  match fs with
  | [] => (tm, [])
  | f :: rest =>
      let '(tm1, log) := on_failure tm f in
      let '(tm2, logs) := on_failures tm1 rest in
      (tm2, log :: logs)
  end.

(** Whether a log holds the event that reports that the reconnection
    attempts are used up. *)
Definition gave_up (log : list effect) : bool :=
  existsb (fun e => match e with
                    | Emit "transport:max_reconnect_attempts" _ => true
                    | _ => false
                    end) log.

(** The last chunk handed to [socket.write]. *)
Definition last_written (tm : TransportManager) : option Buffer :=
  s ← socket tm; last (written s).

(** The frame layout of the design document: a 2-byte big-endian length
    prefix that counts the 9-byte header and the payload, the type byte, the
    id and the timestamp as 4 big-endian bytes each, then the payload. *)
Definition be16 (n : Z) : Buffer := [byte_of_Z (n / 2 ^ 8); byte_of_Z n].

Definition be32 (n : Z) : Buffer :=
  [byte_of_Z (n / 2 ^ 24); byte_of_Z (n / 2 ^ 16); byte_of_Z (n / 2 ^ 8); byte_of_Z n].

Definition wire_layout (m : Message) : Buffer :=
  be16 (9 + Z.of_nat (length (msg_data m)))
  ++ [byte_of_Z (msg_type m)] ++ be32 (msg_id m) ++ be32 (msg_timestamp m)
  ++ msg_data m.

(** A frame that fits the wire: a type byte, a 32-bit id and timestamp, and
    a payload that the 16-bit length prefix can count. *)
Definition valid_frame (m : Message) : Prop :=
  0 <= msg_type m <= 255 /\ 0 <= msg_id m <= 4294967295
  /\ 0 <= msg_timestamp m <= 4294967295 /\ Z.of_nat (length (msg_data m)) <= 65526.

End Transport.

(** ** CryptoManager *)

Module Crypto.
Import Buf.

(** *** JavaScript values and JSON *)

(** What [JSON.parse] returns.  Numbers are the integers; an object is the
    list of its properties in insertion order. *)
Inductive json :=
| JNull
| JBool (b : bool)
| JNumber (n : Z)
| JString (s : string)
| JArray (items : list json)
| JObject (fields : list (string * json)).

(** What the code hands to [JSON.stringify]: JSON, [undefined] and
    [Buffer]s. *)
Inductive value :=
| VUndefined
| VNull
| VBool (b : bool)
| VNumber (n : Z)
| VString (s : string)
| VBuffer (bytes : Buffer)
| VArray (items : list value)
| VObject (fields : list (string * value)).

(** [Buffer.prototype.toJSON] *)
Definition Buffer_toJSON (bytes : Buffer) : json :=
  JObject [("type", JString "Buffer");
           ("data", JArray (map (fun b => JNumber (Z_of_byte b)) bytes))].

(** The tree that [JSON.stringify] writes: [None] is [undefined].  A
    property whose value is [undefined] is left out, an [undefined] array
    element becomes [null], and a [Buffer] is replaced by its [toJSON()]. *)
Fixpoint toJSON (v : value) : option json :=
  match v with
  | VUndefined => None
  | VNull => Some JNull
  | VBool b => Some (JBool b)
  | VNumber n => Some (JNumber n)
  | VString s => Some (JString s)
  | VBuffer bytes => Some (Buffer_toJSON bytes)
  | VArray items =>
      Some (JArray (map (fun x => default JNull (toJSON x)) items))
  | VObject fields =>
      Some (JObject
              (omap (fun kx => match toJSON (snd kx) with
                               | Some j => Some (fst kx, j)
                               | None => None
                               end) fields))
  end.

(** The value of the property [key] among the properties of an object. *)
Fixpoint property (fields : list (string * json)) (key : string) : option json :=
  match fields with
  | [] => None
  | (k, x) :: rest => if decide (k = key) then Some x else property rest key
  end.

(** Property access [j.key] on a parsed value, for a [key] that no
    prototype defines: [None] is [undefined]; reading a property of [null]
    throws. *)
Definition get (j : json) (key : string) : result (option json) :=
  match j with
  | JNull => Throw (TypeError "Cannot read properties of null")
  | JObject fields => Ok (property fields key)
  | _ => Ok None
  end.

(** [o.key] where [o] may be [undefined]. *)
Definition get_opt (o : option json) (key : string) : result (option json) :=
  match o with
  | None => Throw (TypeError "Cannot read properties of undefined")
  | Some j => get j key
  end.

(** The JSON trees on which [JSON.parse] undoes [JSON.stringify]: the
    numbers are safe integers and the property names of an object are
    distinct and not array indices (which an object would reorder). *)
Definition is_digit (a : ascii) : bool :=
  bool_decide (48 <= nat_of_ascii a <= 57)%nat.

Definition index_like (key : string) : bool :=
  match key with
  | EmptyString => false
  | _ => forallb is_digit (list_ascii_of_string key)
  end.

Definition keys_ok (keys : list string) : bool :=
  bool_decide (NoDup keys) && forallb (fun k => negb (index_like k)) keys.

Fixpoint wf_json (j : json) : bool :=
  match j with
  | JNumber n => bool_decide (- (2 ^ 53) < n < 2 ^ 53)
  | JArray items => forallb wf_json items
  | JObject fields =>
      keys_ok (map fst fields) && forallb (fun kx => wf_json (snd kx)) fields
  | _ => true
  end.

(** *** The built-ins of the platform *)

Class Platform := {
  (** [c = crypto.createCipher('aes-256-cbc', password)], then
      [c.update(text, 'utf8', 'base64') + c.final('base64')] *)
  aes_256_cbc_encrypt : Buffer -> string -> string;
  (** [d = crypto.createDecipher('aes-256-cbc', password)], then
      [d.update(data, 'base64', 'utf8') + d.final('utf8')] *)
  aes_256_cbc_decrypt : Buffer -> string -> result string;
  (** [crypto.createHmac('sha256', key).update(data).digest('hex')] *)
  hmac_sha256_hex : Buffer -> string -> string;
  (** the text of a JSON tree, and [JSON.parse] *)
  JSON_write : json -> string;
  JSON_parse : string -> result json;
  (** [buf.toString('base64')] and [buf.toString('hex')] *)
  base64 : Buffer -> string;
  hex : Buffer -> string;
}.

(** What the theorems below may assume of the platform: deciphering under
    the password of the cipher returns the text, and parsing the text of a
    tree returns the tree. *)
Class PlatformLaws (P : Platform) : Prop := {
  decrypt_encrypt : forall password text,
    aes_256_cbc_decrypt password (aes_256_cbc_encrypt password text) = Ok text;
  parse_write : forall j, wf_json j = true -> JSON_parse (JSON_write j) = Ok j;
}.

Section WithPlatform.
Context {P : Platform}.

(** [JSON.stringify(v)]; [None] is [undefined]. *)
Definition JSON_stringify (v : value) : option string :=
  JSON_write <$> toJSON v.

(** *** Sessions *)

Record Session := {
  sessionId : string;
  recipientId : string;
  rootKey : Buffer;
  chainKey : Buffer;
  messageCount : Z;
  timestamp : Z;
}.

(** What one call of [encryptMessage] draws from [crypto.randomBytes],
    [Math.random] and [Date.now], in program order.  The first four are
    drawn only when a session is created. *)
Record Entropy := {
  draw_sessionId : Buffer;
  draw_rootKey : Buffer;
  draw_chainKey : Buffer;
  draw_createdAt : Z;
  draw_messageKey : Buffer;
  draw_contentIv : Buffer;
  draw_messageId : Z;
  draw_now : Z;
  draw_envelopeIv : Buffer;
}.

(** [createSession(recipientId)] *)
Definition createSession (rnd : Entropy) (recipient : string) : Session := {|
  sessionId := hex (draw_sessionId rnd);
  recipientId := recipient;
  rootKey := draw_rootKey rnd;
  chainKey := draw_chainKey rnd;
  messageCount := 0;
  timestamp := draw_createdAt rnd;
|}.

(** [getOrCreateSession(recipientId)] *)
Definition getOrCreateSession (rnd : Entropy) (sessionStore : gmap string Session)
    (recipient : string) : Session * gmap string Session :=
  match sessionStore !! recipient with
  | Some session => (session, sessionStore)
  | None =>
      let session := createSession rnd recipient in
      (session, <[recipient := session]> sessionStore)
  end.

(** [getSession(recipientId)] *)
Definition getSession (sessionStore : gmap string Session) (recipient : string)
  : option Session :=
  sessionStore !! recipient.

(** *** Content and envelopes *)

(** The object returned by [encryptEnvelope]. *)
Record EncryptedEnvelope := {
  iv : value;
  ciphertext : string;
  signature : string;
}.

(** The object returned by [decryptMessage]. *)
Record Decrypted := {
  d_senderId : string;
  d_messageId : option json;
  d_timestamp : option json;
  d_type : option json;
  d_content : json;
}.

(** [cipher.update(text, 'utf8', 'base64')] with [text] the result of
    [JSON.stringify]: [undefined] is rejected. *)
Definition cipher_text (password : Buffer) (text : option string) : result string :=
  match text with
  | Some t => Ok (aes_256_cbc_encrypt password t)
  | None => Throw (TypeError "ERR_INVALID_ARG_TYPE")
  end.

(** [encryptContent(content, messageKey)] *)
Definition encryptContent (iv : Buffer) (content : value) (messageKey : Buffer)
  : result value :=
  encrypted <-! cipher_text messageKey (JSON_stringify content);
  Ok (VObject [("iv", VString (base64 iv)); ("ciphertext", VString encrypted)]).

(** [crypto.createDecipher('aes-256-cbc', key)]: the password is a string
    or a [Buffer]; among parsed JSON only a string qualifies. *)
Definition createDecipher (key : option json) : result Buffer :=
  match key with
  | Some (JString s) => Ok (list_byte_of_string s)
  | _ => Throw (TypeError "ERR_INVALID_ARG_TYPE")
  end.

(** [decipher.update(data, 'base64', 'utf8') + decipher.final('utf8')] *)
Definition decipher_text (password : Buffer) (data : option json) : result string :=
  match data with
  | Some (JString c) => aes_256_cbc_decrypt password c
  | _ => Throw (TypeError "ERR_INVALID_ARG_TYPE")
  end.

(** [decryptContent(encryptedContent, messageKey)], on the properties of a
    parsed envelope. *)
Definition decryptContent (encryptedContent messageKey : option json)
  : result json :=
  password <-! createDecipher messageKey;
  data <-! get_opt encryptedContent "ciphertext";
  decrypted <-! decipher_text password data;
  JSON_parse decrypted.

(** [encryptEnvelope(envelope, session)] *)
Definition encryptEnvelope (iv : Buffer) (envelope : value) (session : Session)
  : result EncryptedEnvelope :=
  let envelopeData := JSON_stringify envelope in
  encrypted <-! cipher_text (chainKey session) envelopeData;
  let signature := hmac_sha256_hex (chainKey session) encrypted in
  Ok {| iv := VString (base64 iv); ciphertext := encrypted; signature := signature |}.

(** [decryptEnvelope(encryptedEnvelope, session)] *)
Definition decryptEnvelope (encryptedEnvelope : EncryptedEnvelope) (session : Session)
  : result json :=
  let expectedSignature :=
    hmac_sha256_hex (chainKey session) (ciphertext encryptedEnvelope) in
  if decide (expectedSignature <> signature encryptedEnvelope)
  then Throw (Error "Invalid message signature")
  else
    decrypted <-! aes_256_cbc_decrypt (chainKey session) (ciphertext encryptedEnvelope);
    JSON_parse decrypted.

(** [encryptMessage(recipientId, message, messageType = 'text')].  The
    session store is returned as well: a session created by the call stays
    in the store when a later step throws. *)
Definition encryptMessage (rnd : Entropy) (sessionStore : gmap string Session)
    (recipient : string) (message : value) (messageType : string)
  : result EncryptedEnvelope * gmap string Session :=
  let '(session, sessionStore') := getOrCreateSession rnd sessionStore recipient in
  let messageKey := draw_messageKey rnd in
  (encryptedContent <-! encryptContent (draw_contentIv rnd) message messageKey;
   let envelope :=
     VObject [("type", VString messageType);
              ("recipientId", VString recipient);
              ("messageId", VNumber (draw_messageId rnd));
              ("timestamp", VNumber (draw_now rnd));
              ("encryptedContent", encryptedContent);
              ("messageKey", VBuffer messageKey);
              ("sessionId", VString (sessionId session))] in
   encryptEnvelope (draw_envelopeIv rnd) envelope session,
   sessionStore').

(** [decryptMessage(senderId, encryptedEnvelope)] *)
Definition decryptMessage (sessionStore : gmap string Session)
    (senderId : string) (encryptedEnvelope : EncryptedEnvelope)
  : result Decrypted :=
  match getSession sessionStore senderId with
  | None => Throw (Error "No session found with sender")
  | Some session =>
      envelope <-! decryptEnvelope encryptedEnvelope session;
      encryptedContent <-! get envelope "encryptedContent";
      messageKey <-! get envelope "messageKey";
      message <-! decryptContent encryptedContent messageKey;
      messageId <-! get envelope "messageId";
      timestamp <-! get envelope "timestamp";
      type <-! get envelope "type";
      Ok {| d_senderId := senderId; d_messageId := messageId;
            d_timestamp := timestamp; d_type := type; d_content := message |}
  end.

(** A run of [encryptMessage] calls for one recipient, threading the
    session store; the envelopes are dropped. *)
Fixpoint encryptMessages (sessionStore : gmap string Session) (recipient : string)
    (calls : list (Entropy * value * string)) : gmap string Session :=
  match calls with
  | [] => sessionStore
  | (rnd, message, messageType) :: rest =>
      encryptMessages (encryptMessage rnd sessionStore recipient message messageType).2
                      recipient rest
  end.

(** The tree of the envelope that [encryptMessage] seals: the message key,
    a [Buffer], is written through its [toJSON()]. *)
Definition sealed (rnd : Entropy) (recipient messageType : string)
    (session : Session) (content : string) : json :=
  JObject [("type", JString messageType);
           ("recipientId", JString recipient);
           ("messageId", JNumber (draw_messageId rnd));
           ("timestamp", JNumber (draw_now rnd));
           ("encryptedContent",
            JObject [("iv", JString (base64 (draw_contentIv rnd)));
                     ("ciphertext", JString content)]);
           ("messageKey", Buffer_toJSON (draw_messageKey rnd));
           ("sessionId", JString (sessionId session))].

End WithPlatform.

End Crypto.

(** ** Tampering with an envelope *)

Module Tamper.
Import Crypto.

(** Bit [k] of a character inverted; there are eight bits. *)
Definition flip_ascii (k : nat) (a : ascii) : option ascii :=
  let 'Ascii b0 b1 b2 b3 b4 b5 b6 b7 := a in
  match k with
  | 0%nat => Some (Ascii (negb b0) b1 b2 b3 b4 b5 b6 b7)
  | 1%nat => Some (Ascii b0 (negb b1) b2 b3 b4 b5 b6 b7)
  | 2%nat => Some (Ascii b0 b1 (negb b2) b3 b4 b5 b6 b7)
  | 3%nat => Some (Ascii b0 b1 b2 (negb b3) b4 b5 b6 b7)
  | 4%nat => Some (Ascii b0 b1 b2 b3 (negb b4) b5 b6 b7)
  | 5%nat => Some (Ascii b0 b1 b2 b3 b4 (negb b5) b6 b7)
  | 6%nat => Some (Ascii b0 b1 b2 b3 b4 b5 (negb b6) b7)
  | 7%nat => Some (Ascii b0 b1 b2 b3 b4 b5 b6 (negb b7))
  | _ => None
  end.

(** Bit [k] of the character at [pos] inverted; [None] when the string has
    no such bit. *)
Fixpoint flip_bit (s : string) (pos k : nat) : option string :=
  match s, pos with
  | EmptyString, _ => None
  | String a rest, O =>
      match flip_ascii k a with
      | Some a' => Some (String a' rest)
      | None => None
      end
  | String a rest, S pos' =>
      match flip_bit rest pos' k with
      | Some rest' => Some (String a rest')
      | None => None
      end
  end.

Definition with_iv (e : EncryptedEnvelope) (v : value) : EncryptedEnvelope :=
  {| iv := v; ciphertext := ciphertext e; signature := signature e |}.

Definition with_ciphertext (e : EncryptedEnvelope) (c : string) : EncryptedEnvelope :=
  {| iv := iv e; ciphertext := c; signature := signature e |}.

Definition with_signature (e : EncryptedEnvelope) (s : string) : EncryptedEnvelope :=
  {| iv := iv e; ciphertext := ciphertext e; signature := s |}.

(** One bit of the ciphertext, or one bit of the signature, inverted. *)
Inductive single_bit_flip (e : EncryptedEnvelope) : EncryptedEnvelope -> Prop :=
| flip_in_ciphertext pos k c' :
    flip_bit (ciphertext e) pos k = Some c' ->
    single_bit_flip e (with_ciphertext e c')
| flip_in_signature pos k s' :
    flip_bit (signature e) pos k = Some s' ->
    single_bit_flip e (with_signature e s').

(** The platform with another decipher and another parser in the place
    of its own; the cipher, the MAC and the writer are kept. *)
Definition with_decipher (P : Platform)
    (decipher : Buf.Buffer -> string -> result string)
    (parse : string -> result json) : Platform := {|
  aes_256_cbc_encrypt := aes_256_cbc_encrypt;
  aes_256_cbc_decrypt := decipher;
  hmac_sha256_hex := hmac_sha256_hex;
  JSON_write := JSON_write;
  JSON_parse := parse;
  base64 := base64;
  hex := hex;
|}.

(** The envelope is rejected for its tag: [decryptEnvelope] and
    [decryptMessage] throw "Invalid message signature", and they do so
    whatever decipher and parser the platform has, that is, without
    consulting them. *)
Definition rejected {P : Platform} (store : gmap string Session) (senderId : string)
    (session : Session) (e : EncryptedEnvelope) : Prop :=
  decryptEnvelope e session = Throw (Error "Invalid message signature")
  /\ decryptMessage store senderId e = Throw (Error "Invalid message signature")
  /\ forall decipher parse,
       decryptMessage (P := with_decipher P decipher parse) store senderId e
       = Throw (Error "Invalid message signature").

(** Two envelopes whose ciphertexts have the same tag under the key of
    the session. *)
Definition same_tag {P : Platform} (session : Session) (e e' : EncryptedEnvelope) : Prop :=
  hmac_sha256_hex (chainKey session) (ciphertext e')
  = hmac_sha256_hex (chainKey session) (ciphertext e).

End Tamper.

(** ** A small platform

    An instance of [Platform] that satisfies [PlatformLaws], on which the
    theorems are run: the cipher prepends the password, the tag is the
    key followed by the text, and JSON trees are written in a prefix
    code. *)

Module Toy.
Import Buf Crypto.

Fixpoint strip_prefix (p s : string) : option string :=
  match p, s with
  | EmptyString, _ => Some s
  | String a p', String b s' => if decide (a = b) then strip_prefix p' s' else None
  | String _ _, EmptyString => None
  end.

Definition toy_encrypt (password : Buffer) (text : string) : string :=
  string_of_list_byte password +:+ text.

Definition toy_decrypt (password : Buffer) (data : string) : result string :=
  match strip_prefix (string_of_list_byte password) data with
  | Some text => Ok text
  | None => Throw (CipherError "bad decrypt")
  end.

Definition toy_hmac (key : Buffer) (data : string) : string :=
  string_of_list_byte key +:+ data.

(** The prefix code: every piece is written in front of what follows. *)
Fixpoint write_nat (n : nat) (k : string) : string :=
  match n with
  | O => String ";" k
  | S n' => String "x" (write_nat n' k)
  end.

Fixpoint write_string (s : string) (k : string) : string :=
  match s with
  | EmptyString => String ";" k
  | String a s' => String "c" (String a (write_string s' k))
  end.

Fixpoint write_json (j : json) (k : string) : string :=
  match j with
  | JNull => String "n" k
  | JBool true => String "t" k
  | JBool false => String "f" k
  | JNumber n =>
      if decide (n < 0) then String "-" (write_nat (Z.to_nat (- n)) k)
      else String "+" (write_nat (Z.to_nat n) k)
  | JString s => String "s" (write_string s k)
  | JArray items =>
      String "[" (fold_right (fun x acc => write_json x acc) (String "]" k) items)
  | JObject fields =>
      String "{" (fold_right (fun kx acc => write_string (fst kx) (write_json (snd kx) acc))
                             (String "}" k) fields)
  end.

Fixpoint read_nat (s : string) : option (nat * string) :=
  match s with
  | String ";" k => Some (O, k)
  | String "x" s' =>
      match read_nat s' with
      | Some (n, k) => Some (S n, k)
      | None => None
      end
  | _ => None
  end.

Fixpoint read_string (s : string) : option (string * string) :=
  match s with
  | String ";" k => Some (EmptyString, k)
  | String "c" (String a s') =>
      match read_string s' with
      | Some (t, k) => Some (String a t, k)
      | None => None
      end
  | _ => None
  end.

Fixpoint read_json (fuel : nat) (s : string) : option (json * string) :=
  match fuel with
  | O => None
  | S fuel' =>
      match s with
      | String "n" k => Some (JNull, k)
      | String "t" k => Some (JBool true, k)
      | String "f" k => Some (JBool false, k)
      | String "-" s' =>
          match read_nat s' with
          | Some (n, k) => Some (JNumber (- Z.of_nat n), k)
          | None => None
          end
      | String "+" s' =>
          match read_nat s' with
          | Some (n, k) => Some (JNumber (Z.of_nat n), k)
          | None => None
          end
      | String "s" s' =>
          match read_string s' with
          | Some (t, k) => Some (JString t, k)
          | None => None
          end
      | String "[" s' =>
          match read_items fuel' s' with
          | Some (items, k) => Some (JArray items, k)
          | None => None
          end
      | String "{" s' =>
          match read_fields fuel' s' with
          | Some (fields, k) => Some (JObject fields, k)
          | None => None
          end
      | _ => None
      end
  end
with read_items (fuel : nat) (s : string) : option (list json * string) :=
  match fuel with
  | O => None
  | S fuel' =>
      match s with
      | String "]" k => Some ([], k)
      | _ =>
          match read_json fuel' s with
          | Some (x, s') =>
              match read_items fuel' s' with
              | Some (items, k) => Some (x :: items, k)
              | None => None
              end
          | None => None
          end
      end
  end
with read_fields (fuel : nat) (s : string) : option (list (string * json) * string) :=
  match fuel with
  | O => None
  | S fuel' =>
      match s with
      | String "}" k => Some ([], k)
      | _ =>
          match read_string s with
          | Some (key, s') =>
              match read_json fuel' s' with
              | Some (x, s'') =>
                  match read_fields fuel' s'' with
                  | Some (fields, k) => Some ((key, x) :: fields, k)
                  | None => None
                  end
              | None => None
              end
          | None => None
          end
      end
  end.

(** The number of characters that a tree takes. *)
Fixpoint size (j : json) : nat :=
  match j with
  | JNull | JBool _ => 1
  | JNumber n => 2 + Z.to_nat (Z.abs n)
  | JString s => 2 + 2 * String.length s
  | JArray items => 2 + foldr (fun x acc => size x + acc)%nat 0%nat items
  | JObject fields =>
      2 + foldr (fun kx acc => 1 + 2 * String.length (fst kx) + size (snd kx) + acc)%nat
                0%nat fields
  end.

Definition toy_write (j : json) : string := write_json j EmptyString.

Definition toy_parse (s : string) : result json :=
  match read_json (String.length s) s with
  | Some (j, EmptyString) => Ok j
  | _ => Throw (SyntaxError "Unexpected token")
  end.

Definition toy : Platform := {|
  aes_256_cbc_encrypt := toy_encrypt;
  aes_256_cbc_decrypt := toy_decrypt;
  hmac_sha256_hex := toy_hmac;
  JSON_write := toy_write;
  JSON_parse := toy_parse;
  base64 := string_of_list_byte;
  hex := string_of_list_byte;
|}.

(** The draws of one call of [encryptMessage], for the examples. *)
Definition draws : Entropy := {|
  draw_sessionId := [x01; x02];
  draw_rootKey := [x10; x11];
  draw_chainKey := [x6b; x31];
  draw_createdAt := 5;
  draw_messageKey := [x6d; x32];
  draw_contentIv := [x03];
  draw_messageId := 42;
  draw_now := 7;
  draw_envelopeIv := [x04];
|}.

(** One message sent to a new peer. *)
Definition sample_sent : result EncryptedEnvelope * gmap string Session :=
  encryptMessage (P := toy) draws ∅ "peer" (VString "hi") "text".

Definition sample_envelope : EncryptedEnvelope :=
  match sample_sent.1 with
  | Ok e => e
  | Throw _ => {| iv := VUndefined; ciphertext := ""; signature := "" |}
  end.

Definition sample_store : gmap string Session := sample_sent.2.

End Toy.

(** ** More of TransportManager *)

Module TransportMore.
Import Buf Transport.

(** [disconnect()]: the flag is cleared, the socket is destroyed and
    forgotten; the receive buffer and the attempt counter are not touched.
    (The heartbeat timer that it clears is not part of the state.) *)
Definition disconnect (tm : TransportManager) : TransportManager * list effect :=
  ({| socket := None;
      isConnected := false;
      reconnectAttempts := reconnectAttempts tm;
      maxReconnectAttempts := maxReconnectAttempts tm;
      reconnectDelay := reconnectDelay tm;
      buffer := buffer tm |},
   [Log "info" "Disconnecting from WhatsApp servers..." NoArg;
    Emit "transport:disconnected" NoArg;
    Log "info" "Disconnected from WhatsApp servers" NoArg]).

(** [getStatus()] *)
Record Status := {
  status_connected : bool;
  status_reconnectAttempts : Z;
  status_maxReconnectAttempts : Z;
}.

Definition getStatus (tm : TransportManager) : Status := {|
  status_connected := isConnected tm;
  status_reconnectAttempts := reconnectAttempts tm;
  status_maxReconnectAttempts := maxReconnectAttempts tm;
|}.

(** The events of a log, without the log lines and the timers. *)
Definition emitted (log : list effect) : list (string * arg) :=
  omap (fun e => match e with Emit event a => Some (event, a) | _ => None end) log.

(** The bytes of consecutive frames. *)
Definition wire_stream (ms : list Message) : Buffer :=
  concat (map wire_layout ms).

(** A proper part of the bytes of a frame, possibly empty. *)
Definition part_of (p : Buffer) (m : Message) : Prop :=
  (length p < length (wire_layout m))%nat /\ p = take (length p) (wire_layout m).






End TransportMore.

(** ** More of CryptoManager *)

Module CryptoMore.
Import Buf Crypto.

(** A JSON tree as a JavaScript value. *)
Fixpoint embed (j : json) : value :=
  match j with
  | JNull => VNull
  | JBool b => VBool b
  | JNumber n => VNumber n
  | JString s => VString s
  | JArray items => VArray (map embed items)
  | JObject fields => VObject (map (fun kx => (fst kx, embed (snd kx))) fields)
  end.

(** [getStatus().activeSessions] *)
Definition activeSessions (sessionStore : gmap string Session) : nat :=
  size sessionStore.

(** The encrypted content as [decryptContent] receives it from a parsed
    envelope. *)
Definition parsed_content (iv ciphertext : string) : option json :=
  Some (JObject [("iv", JString iv); ("ciphertext", JString ciphertext)]).

End CryptoMore.

(** ** The typed senders of TransportManager *)

Module TransportSenders.
Import Buf Transport TransportMore Crypto.

Section WithPlatform.
Context {P : Platform}.

(** [Buffer.from(text)] for the result of [JSON.stringify]: the bytes of
    the text; [undefined] is rejected. *)
Definition Buffer_from (text : option string) : result Buffer :=
  match text with
  | Some s => Ok (list_byte_of_string s)
  | None => Throw (TypeError "ERR_INVALID_ARG_TYPE")
  end.

(** [this.sendMessage(type, Buffer.from(JSON.stringify(payload)))] *)
Definition send_json (now generated : Z) (tm : TransportManager) (type : Z)
    (payload : value) : result Z * TransportManager * list effect :=
  match Buffer_from (JSON_stringify payload) with
  | Ok data => sendMessage now generated tm type data None
  | Throw e => (Throw e, tm, [])
  end.

(** [sendTextMessage(to, text)] *)
Definition sendTextMessage (now generated : Z) (tm : TransportManager) (to text : value) :=
  send_json now generated tm 1 (VObject [("to", to); ("text", text)]).

(** [sendMediaMessage(to, mediaData, mediaType)] *)
Definition sendMediaMessage (now generated : Z) (tm : TransportManager)
    (to mediaData mediaType : value) :=
  send_json now generated tm 2
    (VObject [("to", to); ("media", mediaData); ("type", mediaType)]).

(** [sendGroupMessage(groupId, text)] *)
Definition sendGroupMessage (now generated : Z) (tm : TransportManager)
    (groupId text : value) :=
  send_json now generated tm 3 (VObject [("groupId", groupId); ("text", text)]).

(** [sendPresenceUpdate(isOnline)]; [lastSeen] is the [Date.now()] of the
    payload. *)
Definition sendPresenceUpdate (lastSeen now generated : Z) (tm : TransportManager)
    (isOnline : value) :=
  send_json now generated tm 4
    (VObject [("online", isOnline); ("lastSeen", VNumber lastSeen)]).

(** [sendTypingIndicator(to, isTyping)] *)
Definition sendTypingIndicator (now generated : Z) (tm : TransportManager)
    (to isTyping : value) :=
  send_json now generated tm 5 (VObject [("to", to); ("typing", isTyping)]).

(** [sendReadReceipt(messageId, from)] *)
Definition sendReadReceipt (now generated : Z) (tm : TransportManager)
    (messageId from : value) :=
  send_json now generated tm 6 (VObject [("messageId", messageId); ("from", from)]).

(** [sendHeartbeat()]; [timestamp] is the [Date.now()] of the payload. *)
Definition sendHeartbeat (timestamp now generated : Z) (tm : TransportManager) :=
  send_json now generated tm 8 (VObject [("timestamp", VNumber timestamp)]).

(** The bytes of the JSON text of a value. *)
Definition json_bytes (v : value) : Buffer :=
  match JSON_stringify v with
  | Some s => list_byte_of_string s
  | None => []
  end.

(** The typed senders, each with its type code, the object it sends and
    the event that [handleMessage] emits for this type code. *)
Inductive typed_send (now generated : Z) (tm : TransportManager)
  : result Z * TransportManager * list effect -> Z -> value -> string -> Prop :=
| send_text to text :
    typed_send now generated tm (sendTextMessage now generated tm to text)
      1 (VObject [("to", to); ("text", text)]) "message:text"
| send_media to mediaData mediaType :
    typed_send now generated tm (sendMediaMessage now generated tm to mediaData mediaType)
      2 (VObject [("to", to); ("media", mediaData); ("type", mediaType)]) "message:media"
| send_group groupId text :
    typed_send now generated tm (sendGroupMessage now generated tm groupId text)
      3 (VObject [("groupId", groupId); ("text", text)]) "message:group"
| send_presence lastSeen isOnline :
    typed_send now generated tm (sendPresenceUpdate lastSeen now generated tm isOnline)
      4 (VObject [("online", isOnline); ("lastSeen", VNumber lastSeen)]) "presence:update"
| send_typing to isTyping :
    typed_send now generated tm (sendTypingIndicator now generated tm to isTyping)
      5 (VObject [("to", to); ("typing", isTyping)]) "typing:indicator"
| send_receipt messageId from :
    typed_send now generated tm (sendReadReceipt now generated tm messageId from)
      6 (VObject [("messageId", messageId); ("from", from)]) "receipt:read"
| send_heartbeat timestamp :
    typed_send now generated tm (sendHeartbeat timestamp now generated tm)
      8 (VObject [("timestamp", VNumber timestamp)]) "heartbeat:response".

End WithPlatform.

End TransportSenders.

(** ** MessageHandler and MultiDeviceSync, as far as they send *)

Module Client.
Import Buf Transport TransportMore Crypto.

(** The message object of [MessageHandler.sendTextMessage]. *)
Record SentMessage := {
  sent_id : Z;
  sent_to : string;
  sent_type : string;
  sent_content : value;
  sent_timestamp : Z;
  sent_status : string;
  sent_transportId : option Z;
}.

(** The client with the state that sending reads and writes: the flag of
    the client, the transport manager, the session store of the crypto
    manager and the sent messages of the message handler. *)
Record Client := {
  isAuthenticated : bool;
  transportManager : TransportManager;
  sessionStore : gmap string Session;
  sentMessages : gmap Z SentMessage;
}.

(** What one [MessageHandler.sendTextMessage] draws: its message id and
    timestamp, the draws of [encryptMessage], and the clock and generated
    id of the transport's [sendMessage]. *)
Record SendDraws := {
  draw_id : Z;
  draw_timestamp : Z;
  draw_crypto : Entropy;
  draw_transport_now : Z;
  draw_transport_id : Z;
}.

Inductive client_effect :=
| OfTransport (e : effect)
| EmitMessageSent (m : SentMessage).   (* [this.emit('message:sent', message)] *)

Section WithPlatform.
Context {P : Platform}.

(** [MessageHandler.sendTextMessage(to, text)] *)
Definition sendTextMessage (d : SendDraws) (c : Client) (to : string) (text : value)
  : result SentMessage * Client * list client_effect :=
  if negb (isAuthenticated c)
  then (Throw (Error "Client not authenticated"), c, [])
  else
    let '(encryptedMessage, store') :=
      encryptMessage (draw_crypto d) (sessionStore c) to
        (VObject [("type", VString "text"); ("content", text)]) "text" in
    let c1 := {| isAuthenticated := isAuthenticated c;
                 transportManager := transportManager c;
                 sessionStore := store';
                 sentMessages := sentMessages c |} in
    match encryptedMessage with
    | Throw e => (Throw e, c1, [])
    | Ok _ =>
        let '(transportId, tm', log) :=
          TransportSenders.sendTextMessage (draw_transport_now d) (draw_transport_id d)
            (transportManager c1) (VString to) text in
        match transportId with
        | Throw e =>
            (Throw e,
             {| isAuthenticated := isAuthenticated c;
                transportManager := tm';
                sessionStore := store';
                sentMessages := sentMessages c |},
             OfTransport <$> log)
        | Ok transportId =>
            let message := {| sent_id := draw_id d;
                              sent_to := to;
                              sent_type := "text";
                              sent_content := text;
                              sent_timestamp := draw_timestamp d;
                              sent_status := "sent";
                              sent_transportId := Some transportId |} in
            (Ok message,
             {| isAuthenticated := isAuthenticated c;
                transportManager := tm';
                sessionStore := store';
                sentMessages := <[draw_id d := message]> (sentMessages c) |},
             (OfTransport <$> log) ++ [EmitMessageSent message])
        end
    end.




End WithPlatform.

End Client.

(** A client and draws for the examples. *)

Module Samples.
Import Buf Transport Crypto Toy Client.






End Samples.

(** ** GroupManager

    The calls of the logger are left out.  The notifications, which the
    methods await and which catch their own exceptions, are recorded as
    effects; [notify_loop] gives the calls that they make. *)

Module Groups.

Record Settings := {
  onlyAdminsCanSendMessages : bool;
  onlyAdminsCanEditInfo : bool;
  onlyAdminsCanAddParticipants : bool;
}.

(** A group object.  [updated] is absent until [updateGroupInfo] sets
    it. *)
Record Group := {
  group_id : string;
  name : string;
  description : string;
  owner : string;
  participants : list string;
  admins : list string;
  created : Z;
  settings : Settings;
  updated : option Z;
}.

(** The [updates] of [updateGroupInfo]: for each property of a group, the
    new value if the object has the property. *)
Record Updates := {
  new_id : option string;
  new_name : option string;
  new_description : option string;
  new_owner : option string;
  new_participants : option (list string);
  new_admins : option (list string);
  new_created : option Z;
  new_settings : option Settings;
  new_updated : option Z;
}.

(** The manager: the two maps, and of the client the flag and the phone
    number that the manager reads.  The participants of a group are held
    twice, in the group object and in [groupParticipants]. *)
Record GroupManager := {
  isAuthenticated : bool;
  phoneNumber : string;
  groups : gmap string Group;
  groupParticipants : gmap string (list string);
}.

Inductive effect :=
| NotifyCreation (g : Group)          (* [this.notifyGroupCreation(group)] *)
| NotifyUpdate (g : Group) (updateType : string) (ps : list string)
                                      (* [this.notifyGroupUpdate(group, updateType, ps)] *)
| EmitGroup (event : string) (g : Group)      (* [this.emit(event, group)] *)
| EmitId (event : string) (groupId : string). (* [this.emit(event, groupId)] *)

Definition set_maps (gm : GroupManager) (gs : gmap string Group)
    (gps : gmap string (list string)) : GroupManager :=
  {| isAuthenticated := isAuthenticated gm; phoneNumber := phoneNumber gm;
     groups := gs; groupParticipants := gps |}.

Definition set_members (g : Group) (o : string) (ps as_ : list string) : Group :=
  {| group_id := group_id g; name := name g; description := description g;
     owner := o; participants := ps; admins := as_;
     created := created g; settings := settings g; updated := updated g |}.

(** [Object.assign(group, updates); group.updated = Date.now()] *)
Definition assign (g : Group) (u : Updates) (now : Z) : Group :=
  {| group_id := default (group_id g) (new_id u);
     name := default (name g) (new_name u);
     description := default (description g) (new_description u);
     owner := default (owner g) (new_owner u);
     participants := default (participants g) (new_participants u);
     admins := default (admins g) (new_admins u);
     created := default (created g) (new_created u);
     settings := default (settings g) (new_settings u);
     updated := Some now |}.

(** The two checks that every method starts with. *)
Definition lookup_group (gm : GroupManager) (groupId : string) : result Group :=
  if negb (isAuthenticated gm) then Throw (Error "Client not authenticated")
  else
    match groups gm !! groupId with
    | None => Throw (Error "Group not found")
    | Some g => Ok g
    end.

(** [createGroup(name, participants = [])]; [groupId] is what
    [generateGroupId()] returns and [now] is [Date.now()]. *)
Definition createGroup (groupId : string) (now : Z) (gm : GroupManager)
    (name : string) (ps : list string)
  : result Group * GroupManager * list effect :=
  if negb (isAuthenticated gm) then (Throw (Error "Client not authenticated"), gm, [])
  else
    let group :=
      {| group_id := groupId; name := name; description := "";
         owner := phoneNumber gm;
         participants := phoneNumber gm :: ps;
         admins := [phoneNumber gm];
         created := now;
         settings := {| onlyAdminsCanSendMessages := false;
                        onlyAdminsCanEditInfo := false;
                        onlyAdminsCanAddParticipants := false |};
         updated := None |} in
    (Ok group,
     set_maps gm (<[groupId := group]> (groups gm))
                 (<[groupId := participants group]> (groupParticipants gm)),
     [NotifyCreation group; EmitGroup "group:created" group]).

(** [getGroupInfo(groupId)] *)
Definition getGroupInfo (gm : GroupManager) (groupId : string) : result Group :=
  lookup_group gm groupId.

(** [updateGroupInfo(groupId, updates)] *)
Definition updateGroupInfo (now : Z) (gm : GroupManager) (groupId : string) (u : Updates)
  : result Group * GroupManager * list effect :=
  match lookup_group gm groupId with
  | Throw e => (Throw e, gm, [])
  | Ok group =>
      if decide (phoneNumber gm ∉ admins group)
      then (Throw (Error "Only admins can update group info"), gm, [])
      else
        let group := assign group u now in
        (Ok group,
         set_maps gm (<[groupId := group]> (groups gm)) (groupParticipants gm),
         [NotifyUpdate group "info_updated" []; EmitGroup "group:updated" group])
  end.

(** [addParticipants(groupId, participants)] *)
Definition addParticipants (gm : GroupManager) (groupId : string) (ps : list string)
  : result Group * GroupManager * list effect :=
  match lookup_group gm groupId with
  | Throw e => (Throw e, gm, [])
  | Ok group =>
      if bool_decide (phoneNumber gm ∉ admins group)
         && onlyAdminsCanAddParticipants (settings group)
      then (Throw (Error "Only admins can add participants"), gm, [])
      else
        let newParticipants := filter (fun p => p ∉ participants group) ps in
        let group :=
          set_members group (owner group) (participants group ++ newParticipants)
                      (admins group) in
        (Ok group,
         set_maps gm (<[groupId := group]> (groups gm))
                     (<[groupId := participants group]> (groupParticipants gm)),
         [NotifyUpdate group "participants_added" newParticipants;
          EmitGroup "group:updated" group])
  end.

(** [removeParticipants(groupId, participants)] *)
Definition removeParticipants (gm : GroupManager) (groupId : string) (ps : list string)
  : result Group * GroupManager * list effect :=
  match lookup_group gm groupId with
  | Throw e => (Throw e, gm, [])
  | Ok group =>
      if decide (phoneNumber gm ∉ admins group)
      then (Throw (Error "Only admins can remove participants"), gm, [])
      else
        let group :=
          set_members group (owner group)
                      (filter (fun p => p ∉ ps) (participants group))
                      (filter (fun a => a ∉ ps) (admins group)) in
        (Ok group,
         set_maps gm (<[groupId := group]> (groups gm))
                     (<[groupId := participants group]> (groupParticipants gm)),
         [NotifyUpdate group "participants_removed" ps;
          EmitGroup "group:updated" group])
  end.

(** [promoteToAdmin(groupId, participant)] *)
Definition promoteToAdmin (gm : GroupManager) (groupId : string) (p : string)
  : result Group * GroupManager * list effect :=
  match lookup_group gm groupId with
  | Throw e => (Throw e, gm, [])
  | Ok group =>
      if decide (phoneNumber gm ∉ admins group)
      then (Throw (Error "Only admins can promote participants"), gm, [])
      else if decide (p ∉ participants group)
      then (Throw (Error "Participant not in group"), gm, [])
      else
        let group :=
          set_members group (owner group) (participants group)
                      (if decide (p ∉ admins group) then admins group ++ [p]
                       else admins group) in
        (Ok group,
         set_maps gm (<[groupId := group]> (groups gm)) (groupParticipants gm),
         [NotifyUpdate group "admin_promoted" [p]; EmitGroup "group:updated" group])
  end.

(** [demoteFromAdmin(groupId, participant)] *)
Definition demoteFromAdmin (gm : GroupManager) (groupId : string) (p : string)
  : result Group * GroupManager * list effect :=
  match lookup_group gm groupId with
  | Throw e => (Throw e, gm, [])
  | Ok group =>
      if decide (phoneNumber gm ∉ admins group)
      then (Throw (Error "Only admins can demote participants"), gm, [])
      else if decide (p ∉ admins group)
      then (Throw (Error "Participant is not an admin"), gm, [])
      else if decide (owner group = p)
      then (Throw (Error "Cannot demote group owner"), gm, [])
      else
        let group :=
          set_members group (owner group) (participants group)
                      (filter (fun a => a <> p) (admins group)) in
        (Ok group,
         set_maps gm (<[groupId := group]> (groups gm)) (groupParticipants gm),
         [NotifyUpdate group "admin_demoted" [p]; EmitGroup "group:updated" group])
  end.

(** [leaveGroup(groupId)]; the result is [None] when the group is
    deleted, and the method returns nothing. *)
Definition leaveGroup (gm : GroupManager) (groupId : string)
  : result (option Group) * GroupManager * list effect :=
  match lookup_group gm groupId with
  | Throw e => (Throw e, gm, [])
  | Ok group =>
      let me := phoneNumber gm in
      let ps := filter (fun p => p <> me) (participants group) in
      let as_ := filter (fun a => a <> me) (admins group) in
      let stay (group : Group) :=
        (Ok (Some group),
         set_maps gm (<[groupId := group]> (groups gm))
                     (<[groupId := participants group]> (groupParticipants gm)),
         [NotifyUpdate group "participant_left" [me]; EmitGroup "group:left" group]) in
      if decide (owner group = me) then
        match as_, ps with
        | a :: _, _ => stay (set_members group a ps as_)
        | [], p :: _ => stay (set_members group p ps (as_ ++ [p]))
        | [], [] =>
            (Ok None,
             set_maps gm (delete groupId (groups gm))
                         (delete groupId (groupParticipants gm)),
             [EmitId "group:deleted" groupId])
        end
      else stay (set_members group (owner group) ps as_)
  end.

(** [deleteGroup(groupId)] *)
Definition deleteGroup (gm : GroupManager) (groupId : string)
  : result unit * GroupManager * list effect :=
  match lookup_group gm groupId with
  | Throw e => (Throw e, gm, [])
  | Ok group =>
      if decide (owner group <> phoneNumber gm)
      then (Throw (Error "Only group owner can delete group"), gm, [])
      else
        (Ok tt,
         set_maps gm (delete groupId (groups gm)) (delete groupId (groupParticipants gm)),
         [NotifyUpdate group "group_deleted" []; EmitId "group:deleted" groupId])
  end.

(** [getGroupParticipants(groupId)] *)
Definition getGroupParticipants (gm : GroupManager) (groupId : string) : list string :=
  default [] (groupParticipants gm !! groupId).

(** [isInGroup(groupId, participant)] *)
Definition isInGroup (gm : GroupManager) (groupId p : string) : bool :=
  match groupParticipants gm !! groupId with
  | Some ps => bool_decide (p ∈ ps)
  | None => false
  end.

(** [isAdmin(groupId, participant)] *)
Definition isAdmin (gm : GroupManager) (groupId p : string) : bool :=
  match groups gm !! groupId with
  | Some group => bool_decide (p ∈ admins group)
  | None => false
  end.

(** The calls of [messageHandler.sendTextMessage(participant, message)]
    that the loop of [notifyGroupCreation] and [notifyGroupUpdate] makes:
    one for each participant other than the caller, in order, up to the
    first call that throws; [delivered p message] tells whether the call
    returns.  The exception is caught and logged. *)
Fixpoint notify_loop (delivered : string -> string -> bool) (me message : string)
    (ps : list string) : list (string * string) :=
  match ps with
  | [] => []
  | p :: rest =>
      if decide (p <> me) then
        (p, message) :: (if delivered p message
                         then notify_loop delivered me message rest
                         else [])
      else notify_loop delivered me message rest
  end.

(** A method call of the manager, with what it draws. *)
Inductive call :=
| CreateGroup (groupId : string) (now : Z) (name : string) (ps : list string)
| UpdateGroupInfo (now : Z) (groupId : string) (u : Updates)
| AddParticipants (groupId : string) (ps : list string)
| RemoveParticipants (groupId : string) (ps : list string)
| PromoteToAdmin (groupId p : string)
| DemoteFromAdmin (groupId p : string)
| LeaveGroup (groupId : string)
| DeleteGroup (groupId : string).

(** Whether the call threw, the manager after the call, and the effects
    of the call. *)
Definition perform (gm : GroupManager) (c : call)
  : option exn * GroupManager * list effect :=
  let thrown {A} (r : result A) : option exn :=
    match r with Ok _ => None | Throw e => Some e end in
  match c with
  | CreateGroup groupId now name ps =>
      let '(r, gm', log) := createGroup groupId now gm name ps in (thrown r, gm', log)
  | UpdateGroupInfo now groupId u =>
      let '(r, gm', log) := updateGroupInfo now gm groupId u in (thrown r, gm', log)
  | AddParticipants groupId ps =>
      let '(r, gm', log) := addParticipants gm groupId ps in (thrown r, gm', log)
  | RemoveParticipants groupId ps =>
      let '(r, gm', log) := removeParticipants gm groupId ps in (thrown r, gm', log)
  | PromoteToAdmin groupId p =>
      let '(r, gm', log) := promoteToAdmin gm groupId p in (thrown r, gm', log)
  | DemoteFromAdmin groupId p =>
      let '(r, gm', log) := demoteFromAdmin gm groupId p in (thrown r, gm', log)
  | LeaveGroup groupId =>
      let '(r, gm', log) := leaveGroup gm groupId in (thrown r, gm', log)
  | DeleteGroup groupId =>
      let '(r, gm', log) := deleteGroup gm groupId in (thrown r, gm', log)
  end.

(** Calls one after the other. *)
Fixpoint perform_all (gm : GroupManager) (cs : list call) : GroupManager :=
  match cs with
  | [] => gm
  | c :: rest => perform_all (perform gm c).1.2 rest
  end.

(** The manager of a client that has authenticated, before any call. *)
Definition new_GroupManager (phone : string) : GroupManager :=
  {| isAuthenticated := true; phoneNumber := phone; groups := ∅; groupParticipants := ∅ |}.

(** A call that leaves the member lists to the methods that are made for
    them: an [updateGroupInfo] whose [updates] have no [participants] and
    no [admins]. *)
Definition keeps_members (c : call) : Prop :=
  match c with
  | UpdateGroupInfo _ _ u => new_participants u = None /\ new_admins u = None
  | _ => True
  end.

(** The two properties that the methods maintain: the index
    [groupParticipants] holds, for the same group ids, the participants of
    the group objects; and the admins of a group are among its
    participants. *)
Definition consistent (gm : GroupManager) : Prop :=
  (forall groupId, groupParticipants gm !! groupId = participants <$> (groups gm !! groupId))
  /\ (forall groupId g, groups gm !! groupId = Some g -> admins g ⊆ participants g).

End Groups.

(** * Facts *)

(** ** Bytes and big-endian fields *)

Module BufFacts.
Import Buf.

Lemma Z_of_byte_range (b : byte) : 0 <= Z_of_byte b < 256.
Proof.
  unfold Z_of_byte. pose proof (Byte.to_N_bounded b). lia.
Qed.

Lemma Z_of_byte_of_Z (z : Z) : Z_of_byte (byte_of_Z z) = z mod 256.
Proof.
  unfold Z_of_byte, byte_of_Z.
  pose proof (Z.mod_pos_bound z 256 ltac:(lia)) as Hz.
  destruct (Byte.of_N (Z.to_N (z mod 256))) as [b|] eqn:Hb; simpl.
  - apply Byte.to_of_N in Hb. rewrite Hb. lia.
  - apply Byte.of_N_None_iff in Hb. lia.
Qed.

Lemma byte_of_Z_of_byte (b : byte) : byte_of_Z (Z_of_byte b) = b.
Proof.
  unfold byte_of_Z. pose proof (Z_of_byte_range b) as Hb.
  rewrite Z.mod_small by lia. unfold Z_of_byte.
  rewrite N2Z.id, Byte.of_to_N. reflexivity.
Qed.

(** A 16-bit value is the big-endian sum of its two bytes. *)
Lemma be16_sum (n : Z) :
  0 <= n < 2 ^ 16 ->
  ((n / 2 ^ 8) mod 256) * 2 ^ 8 + n mod 256 = n.
Proof.
  intros Hn. change (2 ^ 8) with 256.
  rewrite (Z.mod_small (n / 256)) by (split; [apply Z.div_pos; lia | apply Z.div_lt_upper_bound; lia]).
  pose proof (Z.div_mod n 256 ltac:(lia)). lia.
Qed.

(** A 32-bit value is the big-endian sum of its four bytes. *)
Lemma be32_sum (n : Z) :
  0 <= n < 2 ^ 32 ->
  ((n / 2 ^ 24) mod 256) * 2 ^ 24 + ((n / 2 ^ 16) mod 256) * 2 ^ 16
  + ((n / 2 ^ 8) mod 256) * 2 ^ 8 + n mod 256 = n.
Proof.
  intros Hn.
  change (2 ^ 24) with (256 * 256 * 256). change (2 ^ 16) with (256 * 256).
  change (2 ^ 8) with 256. change (2 ^ 32) with (256 * 256 * 256 * 256) in Hn.
  rewrite <- !Z.div_div by lia.
  set (q1 := n / 256). set (q2 := q1 / 256). set (q3 := q2 / 256).
  pose proof (Z.div_mod n 256 ltac:(lia)) as H0.
  pose proof (Z.div_mod q1 256 ltac:(lia)) as H1.
  pose proof (Z.div_mod q2 256 ltac:(lia)) as H2.
  fold q1 in H0. fold q2 in H1. fold q3 in H2.
  assert (0 <= q3 < 256) as H3.
  { subst q3 q2 q1. rewrite !Z.div_div by lia.
    split; [apply Z.div_pos; lia | apply Z.div_lt_upper_bound; lia]. }
  rewrite (Z.mod_small q3) by lia.
  pose proof (Z.mod_pos_bound n 256 ltac:(lia)).
  pose proof (Z.mod_pos_bound q1 256 ltac:(lia)).
  pose proof (Z.mod_pos_bound q2 256 ltac:(lia)).
  lia.
Qed.

(** Copying a source over a zeroed target of its own length gives the
    source. *)
Lemma list_inserts_0_all {A} (k l : list A) :
  length l = length k -> list_inserts 0 k l = k.
Proof.
  intros Hl. rewrite <- (app_nil_r l), list_inserts_0_r by done.
  apply app_nil_r.
Qed.

End BufFacts.

(** ** Frames on the wire *)

Module TransportFacts.
Import Buf Transport BufFacts.

Lemma wire_layout_length (m : Message) :
  length (wire_layout m) = (11 + length (msg_data m))%nat.
Proof. reflexivity. Qed.

Ltac pass_check :=
  unfold writeUInt8, writeUInt16BE, writeUInt32BE, checkInt;
  rewrite decide_True by lia;
  rewrite decide_True by (simpl; rewrite ?length_replicate; lia);
  cbn [rbind].

(** What [sendMessage] builds: on a connected manager and for fields in
    range, the chunk written is the frame layout, the id returned is the
    id written, and nothing else changes. *)
Lemma sendMessage_writes now generated tm type data id :
  isConnected tm = true -> is_Some (socket tm) ->
  let m := {| msg_type := type; msg_id := or_generate id generated;
              msg_timestamp := now / 1000; msg_data := data |} in
  valid_frame m ->
  sendMessage now generated tm type data id
  = (Ok (msg_id m), socket_write tm (wire_layout m),
     [Log "debug" "Sent message:" (NumArg (msg_id m))]).
Proof.
  intros Hc Hs m (Ht & Hi & Hts & Hd). simpl in *.
  unfold sendMessage. rewrite Hc, (bool_decide_eq_true_2 _ Hs). cbn [negb orb].
  unfold alloc. cbn [Nat.add replicate].
  pass_check. cbn [insert list_insert Nat.add].
  pass_check. cbn [insert list_insert Nat.add].
  pass_check. cbn [insert list_insert Nat.add].
  unfold copy. rewrite !list_inserts_cons.
  rewrite list_inserts_0_all by apply length_replicate.
  cbn [length]. pass_check. cbn [insert list_insert Nat.add length].
  unfold wire_layout, be16, be32, m. cbn [msg_type msg_id msg_timestamp msg_data app].
  replace (Z.of_nat (S (S (S (S (S (S (S (S (S (length data)))))))))))
    with (9 + Z.of_nat (length data)) by lia.
  reflexivity.
Qed.

(** The 16-bit prefix read back from a frame. *)
Lemma readUInt16BE_be16 (n : Z) (rest : Buffer) :
  0 <= n < 2 ^ 16 -> readUInt16BE (be16 n ++ rest) 0 = Ok n.
Proof.
  intros Hn. unfold readUInt16BE, be16. simpl.
  rewrite !Z_of_byte_of_Z. f_equal. apply be16_sum. exact Hn.
Qed.

Lemma lookup_behind {A} (front l : list A) (i : nat) :
  (front ++ l) !! (length front + i)%nat = l !! i.
Proof. rewrite lookup_app_r by lia. f_equal. lia. Qed.

Lemma readUInt32BE_be32 (n : Z) (front rest : Buffer) :
  0 <= n < 2 ^ 32 ->
  readUInt32BE (front ++ be32 n ++ rest) (length front) = Ok n.
Proof.
  intros Hn. unfold readUInt32BE.
  rewrite !lookup_behind.
  rewrite <- (Nat.add_0_r (length front)) at 1. rewrite lookup_behind.
  simpl. rewrite !Z_of_byte_of_Z. f_equal. apply be32_sum. exact Hn.
Qed.

(** [decodeMessage] undoes the header and the payload of the layout. *)
Lemma decodeMessage_layout (m : Message) :
  valid_frame m ->
  decodeMessage (drop 2 (wire_layout m)) = (Some m, []).
Proof.
  intros (Ht & Hi & Hts & Hd). destruct m as [type id ts data].
  cbn [msg_type msg_id msg_timestamp msg_data] in *.
  unfold decodeMessage, wire_layout, be16, be32, readUInt8, readUInt32BE.
  cbn [msg_type msg_id msg_timestamp msg_data app drop lookup list_lookup Nat.add rbind].
  rewrite !Z_of_byte_of_Z.
  rewrite !be32_sum by (change (2 ^ 32) with 4294967296; lia).
  rewrite Z.mod_small by lia. reflexivity.
Qed.

(** A complete frame at the head of the buffer is cut off and decoded. *)
Lemma parseMessage_frame tm (m : Message) (rest : Buffer) :
  valid_frame m -> buffer tm = wire_layout m ++ rest ->
  parseMessage tm = (Ok (Some m), set_buffer tm rest, []).
Proof.
  intros Hv Hb. pose proof Hv as (Ht & Hi & Hts & Hd).
  unfold parseMessage. rewrite Hb.
  rewrite decide_False by (rewrite length_app, wire_layout_length; lia).
  unfold wire_layout at 1. rewrite <- app_assoc.
  rewrite readUInt16BE_be16 by (change (2 ^ 16) with 65536; lia).
  rewrite decide_False by (rewrite length_app, wire_layout_length; lia).
  replace (Z.to_nat (9 + Z.of_nat (length (msg_data m)) + 2))
    with (length (wire_layout m)) by (rewrite wire_layout_length; lia).
  unfold slice. rewrite drop_app_length.
  rewrite take_drop_commute, take_app_length'
    by (rewrite wire_layout_length; lia).
  rewrite decodeMessage_layout by exact Hv. reflexivity.
Qed.

(** A frame of which some bytes are still missing stays in the buffer. *)
Lemma parseMessage_partial tm (m : Message) (k : nat) :
  valid_frame m -> (k < length (wire_layout m))%nat ->
  buffer tm = take k (wire_layout m) ->
  parseMessage tm = (Ok None, tm, []).
Proof.
  intros (Ht & Hi & Hts & Hd) Hk Hb. unfold parseMessage. rewrite Hb.
  rewrite length_take, wire_layout_length in *.
  destruct (decide (k `min` (11 + length (msg_data m)) < 3)%nat) as [|Hk3]; [done|].
  assert (take k (wire_layout m)
          = be16 (9 + Z.of_nat (length (msg_data m)))
            ++ take (k - 2) (drop 2 (wire_layout m))) as ->.
  { destruct k as [|[|k]]; [lia | lia |]. simpl. by rewrite Nat.sub_0_r. }
  rewrite readUInt16BE_be16 by (change (2 ^ 16) with 65536; lia).
  rewrite decide_True; [done|]. lia.
Qed.

(** [sendMessage] returns an id only on the path of [sendMessage_writes]. *)
Lemma sendMessage_Ok_inv now generated tm type data id mid tm' log :
  sendMessage now generated tm type data id = (Ok mid, tm', log) ->
  let m := {| msg_type := type; msg_id := or_generate id generated;
              msg_timestamp := now / 1000; msg_data := data |} in
  isConnected tm = true /\ is_Some (socket tm) /\ valid_frame m
  /\ mid = msg_id m /\ tm' = socket_write tm (wire_layout m).
Proof.
  intros Hsend m.
  assert (isConnected tm = true /\ is_Some (socket tm) /\ valid_frame m) as (Hc & Hs & Hv).
  { revert Hsend. unfold sendMessage.
    destruct (isConnected tm); [|discriminate].
    destruct (bool_decide (is_Some (socket tm))) eqn:Hs; [|discriminate].
    apply bool_decide_eq_true_1 in Hs. cbn [negb orb].
    unfold writeUInt8, writeUInt32BE, writeUInt16BE, checkInt, copy, alloc.
    destruct (decide (0 <= type <= 255)); [|discriminate].
    rewrite decide_True by (rewrite length_replicate; lia). cbn [rbind].
    destruct (decide (0 <= or_generate id generated <= 4294967295)); [|discriminate].
    rewrite decide_True by (rewrite length_insert, length_replicate; lia). cbn [rbind].
    destruct (decide (0 <= now / 1000 <= 4294967295)); [|discriminate].
    rewrite decide_True by (rewrite !length_insert, length_replicate; lia). cbn [rbind].
    rewrite length_inserts, !length_insert, length_replicate.
    destruct (decide (0 <= Z.of_nat (9 + length data) <= 65535)); [|discriminate].
    intros _. split. { reflexivity. } split. { exact Hs. } unfold valid_frame, m; simpl. lia. }
  rewrite sendMessage_writes in Hsend by done.
  injection Hsend as <- <- _. repeat split; try done; apply Hv.
Qed.

Lemma last_written_socket_write tm chunk :
  is_Some (socket tm) -> last_written (socket_write tm chunk) = Some chunk.
Proof.
  intros [s Hs]. unfold last_written, socket_write. simpl. rewrite Hs. simpl.
  apply last_snoc.
Qed.

(** ** The read loop *)

Lemma process_empty fuel tm :
  buffer tm = [] -> process fuel tm = Some (Ok tt, tm, []).
Proof. intros Hb. destruct fuel; simpl; rewrite Hb; reflexivity. Qed.

Lemma readUInt16BE_range (b : Buffer) (offset : nat) (n : Z) :
  readUInt16BE b offset = Ok n -> 0 <= n <= 65535.
Proof.
  unfold readUInt16BE.
  destruct (b !! offset) as [hi|]; [|discriminate].
  destruct (b !! (offset + 1)%nat) as [lo|]; [|discriminate].
  intros [= <-]. pose proof (Z_of_byte_range hi). pose proof (Z_of_byte_range lo).
  change (2 ^ 8) with 256. lia.
Qed.

(** Every message taken off the buffer shortens it by two bytes or more. *)
Lemma parseMessage_shrinks tm m tm' log :
  parseMessage tm = (Ok (Some m), tm', log) ->
  (length (buffer tm') + 2 <= length (buffer tm))%nat.
Proof.
  unfold parseMessage. case_decide; [discriminate|].
  destruct (readUInt16BE (buffer tm) 0) as [len|] eqn:Hlen; [|discriminate].
  apply readUInt16BE_range in Hlen.
  case_decide; [discriminate|].
  destruct (decodeMessage _) as [o l]. intros [= _ <- _]. simpl.
  rewrite length_drop. lia.
Qed.

(** The loop ends within as many iterations as the buffer has bytes. *)
Lemma process_total fuel tm :
  (length (buffer tm) <= fuel)%nat -> is_Some (process fuel tm).
Proof.
  revert tm. induction fuel as [|fuel IH]; intros tm Hlen; simpl.
  - rewrite decide_False by lia. eauto.
  - case_decide; [|eauto].
    destruct (parseMessage tm) as [[[[m|]|e] tm'] log] eqn:Hp; [|eauto|eauto].
    apply parseMessage_shrinks in Hp.
    destruct (IH tm' ltac:(lia)) as [[[r tm''] log'] ->]. eauto.
Qed.

(** [handleIncomingData] returns on every input. *)
Lemma handleIncomingData_total tm data :
  is_Some (handleIncomingData tm data).
Proof.
  unfold handleIncomingData.
  destruct (process_total (length (buffer (set_buffer tm (buffer tm ++ data))))
              (set_buffer tm (buffer tm ++ data)) ltac:(lia)) as [[[[|e] tm'] log] ->];
    eauto.
Qed.

Section OneFrame.
Variable m : Message.
Hypothesis m_valid : valid_frame m.

(** A read that leaves the frame incomplete only grows the buffer. *)
Lemma handleIncomingData_partial tm chunk k :
  (k < length (wire_layout m))%nat ->
  buffer tm ++ chunk = take k (wire_layout m) ->
  handleIncomingData tm chunk = Some (set_buffer tm (take k (wire_layout m)), []).
Proof.
  intros Hk Hb. unfold handleIncomingData. rewrite Hb.
  set (tm1 := set_buffer tm (take k (wire_layout m))).
  destruct (length (buffer tm1)) as [|fuel] eqn:Hlen.
  - rewrite process_empty; [done|]. by apply nil_length_inv.
  - cbn [process]. rewrite decide_True by lia.
    rewrite (parseMessage_partial tm1 m k) by done. reflexivity.
Qed.

(** The read that completes the frame hands it to [handleMessage] and
    empties the buffer. *)
Lemma handleIncomingData_complete tm chunk :
  buffer tm ++ chunk = wire_layout m ->
  handleIncomingData tm chunk = Some (set_buffer tm [], handleMessage m).
Proof.
  intros Hb. unfold handleIncomingData. rewrite Hb.
  set (tm1 := set_buffer tm (wire_layout m)).
  change (length (buffer tm1)) with (S (10 + length (msg_data m))).
  cbn [process]. rewrite decide_True by (simpl; lia).
  rewrite (parseMessage_frame tm1 m []) by (done || (simpl; by rewrite app_nil_r)).
  rewrite process_empty by done. reflexivity.
Qed.

Lemma feed_nothing tm chunks :
  buffer tm = [] -> concat chunks = [] -> feed tm chunks = Some (tm, []).
Proof.
  intros Hb. induction chunks as [|c chunks IH]; [done|]. simpl.
  intros [-> Hrest]%app_eq_nil. unfold handleIncomingData.
  rewrite process_empty by (simpl; by rewrite Hb).
  assert (set_buffer tm (buffer tm ++ []) = tm) as ->.
  { destruct tm. simpl in *. by rewrite app_nil_r. }
  by rewrite IH.
Qed.

(** Chunks that add up to the frame, fed to a manager that holds a proper
    part of it, deliver the frame once. *)
Lemma feed_frame chunks : forall tm,
  buffer tm ++ concat chunks = wire_layout m ->
  (length (buffer tm) < length (wire_layout m))%nat ->
  feed tm chunks = Some (set_buffer tm [], handleMessage m).
Proof.
  induction chunks as [|c chunks IH]; intros tm Hw Hlt.
  - simpl in Hw. rewrite app_nil_r in Hw. rewrite Hw in Hlt. lia.
  - simpl in Hw. rewrite app_assoc in Hw. cbn [feed].
    destruct (decide (length (buffer tm ++ c) < length (wire_layout m))%nat) as [Hk|Hk].
    + assert (buffer tm ++ c = take (length (buffer tm ++ c)) (wire_layout m)) as Hpre.
      { rewrite <- Hw. by rewrite take_app_length. }
      rewrite (handleIncomingData_partial tm c _ Hk Hpre).
      rewrite (IH (set_buffer tm (take (length (buffer tm ++ c)) (wire_layout m)))).
      * reflexivity.
      * simpl. by rewrite <- Hpre.
      * simpl. by rewrite <- Hpre.
    + assert (concat chunks = []) as Hnil.
      { apply nil_length_inv. apply (f_equal length) in Hw.
        rewrite length_app in Hw. lia. }
      rewrite Hnil, app_nil_r in Hw.
      rewrite (handleIncomingData_complete tm c Hw).
      rewrite feed_nothing by done. by rewrite app_nil_r.
Qed.

End OneFrame.

(** ** The properties of the design document *)

(** C3 (frame round trip).  For every frame with a type byte, a 32-bit id,
    a 32-bit timestamp and a payload of at most 65526 bytes: a
    [sendMessage] that sends this frame writes exactly the frame layout
    (length prefix 9 + payload length, type, id, timestamp, payload), and
    [parseMessage] on these bytes returns the frame and leaves the buffer
    empty. *)
Theorem frame_round_trip (m : Message) now generated id tm rx :
  valid_frame m ->
  isConnected tm = true -> is_Some (socket tm) ->
  now / 1000 = msg_timestamp m -> or_generate id generated = msg_id m ->
  exists tm' log wire,
    sendMessage now generated tm (msg_type m) (msg_data m) id
    = (Ok (msg_id m), tm', log)
    /\ last_written tm' = Some wire
    /\ wire = wire_layout m
    /\ parseMessage (set_buffer rx wire) = (Ok (Some m), set_buffer rx [], []).
Proof.
  intros Hv Hc Hs Hts Hid.
  pose proof (sendMessage_writes now generated tm (msg_type m) (msg_data m) id Hc Hs) as Hsend.
  cbn zeta in Hsend. rewrite Hts, Hid in Hsend.
  assert ({| msg_type := msg_type m; msg_id := msg_id m;
             msg_timestamp := msg_timestamp m; msg_data := msg_data m |} = m) as Hm
    by (by destruct m).
  rewrite Hm in Hsend. specialize (Hsend Hv). cbn [msg_id] in Hsend.
  eexists _, _, (wire_layout m). split; [exact Hsend|].
  split; [by apply last_written_socket_write|]. split; [done|].
  change (set_buffer rx []) with (set_buffer (set_buffer rx (wire_layout m)) []).
  apply parseMessage_frame; [done|]. simpl. by rewrite app_nil_r.
Qed.

Lemma frame_round_trip_witness :
  let m := {| msg_type := 1; msg_id := 258; msg_timestamp := 5;
              msg_data := [x68; x69] |} in
  exists tm' log wire,
    sendMessage 5000 7 (connected new_TransportManager) 1 [x68; x69] (Some 258)
    = (Ok 258, tm', log)
    /\ last_written tm' = Some wire
    /\ wire = wire_layout m
    /\ parseMessage (set_buffer new_TransportManager wire)
       = (Ok (Some m), set_buffer new_TransportManager [], []).
Proof.
  intros m.
  apply (frame_round_trip m 5000 7 (Some 258) (connected new_TransportManager)
           new_TransportManager).
  - unfold valid_frame. simpl. lia.
  - reflexivity.
  - by eexists.
  - reflexivity.
  - reflexivity.
Defined.

(** Every valid frame is sent by some call: the clock is at the frame's
    second and the id is left to the generator. *)
Lemma every_frame_sendable (m : Message) tm :
  valid_frame m -> isConnected tm = true -> is_Some (socket tm) ->
  sendMessage (msg_timestamp m * 1000) (msg_id m) tm (msg_type m) (msg_data m) None
  = (Ok (msg_id m), socket_write tm (wire_layout m),
     [Log "debug" "Sent message:" (NumArg (msg_id m))]).
Proof.
  intros Hv Hc Hs.
  pose proof (sendMessage_writes (msg_timestamp m * 1000) (msg_id m) tm
                (msg_type m) (msg_data m) None Hc Hs) as Hsend.
  cbn zeta in Hsend. rewrite Z.div_mul in Hsend by lia. cbn [or_generate] in Hsend.
  destruct m. apply Hsend, Hv.
Qed.

(** An id of 0 counts as no id: the frame that is sent, and read back,
    carries the generated id. *)
Example zero_id_is_replaced :
  sendMessage 5000 7 (connected new_TransportManager) 1 [x68; x69] (Some 0)
  = (Ok 7,
     socket_write (connected new_TransportManager)
       [x00; x0b; x01; x00; x00; x00; x07; x00; x00; x00; x05; x68; x69],
     [Log "debug" "Sent message:" (NumArg 7)]).
Proof. reflexivity. Qed.

(** C4 (partial-frame buffering).  For the bytes of a frame written by
    [sendMessage] and every way of cutting them into successive reads:
    the reads deliver exactly one frame to [handleMessage], with the same
    effects and the same final state as a single read of all the bytes;
    and as long as the reads so far leave the frame incomplete, they only
    accumulate in the buffer and produce no effect. *)
Theorem partial_frame_buffering now generated tm type data id mid tm' log wire
    (rx : TransportManager) (chunks : list Buffer) :
  sendMessage now generated tm type data id = (Ok mid, tm', log) ->
  last_written tm' = Some wire ->
  buffer rx = [] ->
  concat chunks = wire ->
  let m := {| msg_type := type; msg_id := mid;
              msg_timestamp := now / 1000; msg_data := data |} in
  exists effects,
    feed rx chunks = Some (set_buffer rx [], effects)
    /\ handleIncomingData rx wire = Some (set_buffer rx [], effects)
    /\ received effects = [m]
    /\ forall k, (length (concat (take k chunks)) < length wire)%nat ->
         feed rx (take k chunks) = Some (set_buffer rx (concat (take k chunks)), []).
Proof.
  intros Hsend Hlast Hrx Hcat m.
  apply sendMessage_Ok_inv in Hsend as (Hc & Hs & Hv & Hmid & ->).
  cbn [msg_id] in Hmid. rewrite <- Hmid in Hv. fold m in Hv.
  rewrite last_written_socket_write in Hlast by done.
  rewrite <- Hmid in Hlast. fold m in Hlast. injection Hlast as <-.
  exists (handleMessage m). split; [|split; [|split]].
  - apply feed_frame; [done | by rewrite Hrx | rewrite Hrx; simpl; lia].
  - apply handleIncomingData_complete; [done | by rewrite Hrx].
  - unfold handleMessage, route, received.
    repeat case_decide; reflexivity.
  - intros k. assert (exists tail, concat (take k chunks) ++ tail = wire_layout m) as [tail Htail].
    { exists (concat (drop k chunks)). by rewrite <- concat_app, take_drop. }
    clear Hcat. revert rx Hrx Htail.
    generalize (take k chunks). clear chunks k.
    intros chunks. 
    assert (forall (rx : TransportManager) (done_ : Buffer),
      buffer rx = done_ ->
      (done_ ++ concat chunks) ++ tail = wire_layout m ->
      (length (done_ ++ concat chunks) < length (wire_layout m))%nat ->
      feed rx chunks = Some (set_buffer rx (done_ ++ concat chunks), [])) as Hgen.
    { induction chunks as [|c chunks IH]; intros rx done_ Hrx Htail Hlt.
      - simpl. rewrite app_nil_r, <- Hrx. by destruct rx.
      - cbn [feed concat] in *. rewrite (app_assoc done_ c) in *.
        assert (done_ ++ c = take (length (done_ ++ c)) (wire_layout m)) as Hpre.
        { rewrite <- Htail, <- !app_assoc, app_assoc. by rewrite take_app_length. }
        assert (length (done_ ++ c) < length (wire_layout m))%nat as Hk
          by (rewrite length_app in Hlt; lia).
        rewrite <- Hrx in Hpre at 1.
        rewrite (handleIncomingData_partial m Hv rx c _ Hk Hpre).
        rewrite <- Hpre, Hrx.
        rewrite (IH (set_buffer rx (done_ ++ c)) (done_ ++ c)); done. }
    intros rx Hrx Htail Hlt.
    rewrite (Hgen rx [] Hrx); simpl; done.
Qed.

Lemma partial_frame_buffering_witness :
  let wire := [x00; x0b; x01; x00; x00; x01; x02; x00; x00; x00; x05; x68; x69] in
  let chunks := [[x00]; [x0b; x01; x00; x00; x01]; []; [x02; x00; x00; x00; x05; x68]; [x69]] in
  let m := {| msg_type := 1; msg_id := 258; msg_timestamp := 5; msg_data := [x68; x69] |} in
  exists effects,
    feed new_TransportManager chunks = Some (set_buffer new_TransportManager [], effects)
    /\ handleIncomingData new_TransportManager wire
       = Some (set_buffer new_TransportManager [], effects)
    /\ received effects = [m]
    /\ forall k, (length (concat (take k chunks)) < length wire)%nat ->
         feed new_TransportManager (take k chunks)
         = Some (set_buffer new_TransportManager (concat (take k chunks)), []).
Proof.
  intros wire chunks m.
  apply (partial_frame_buffering 5000 7 (connected new_TransportManager) 1 [x68; x69]
           (Some 258) 258
           (socket_write (connected new_TransportManager) wire)
           [Log "debug" "Sent message:" (NumArg 258)]).
  - reflexivity.
  - reflexivity.
  - reflexivity.
  - reflexivity.
Defined.

Example first_reconnection :
  attemptReconnect (connected new_TransportManager)
  = (set_reconnectAttempts (connected new_TransportManager) 1,
     [Log "info" "Attempting reconnection" (NumArg 1000); SetTimeout 1000]).
Proof. reflexivity. Qed.

(** C5, as the code has it.  The socket reports a failure of the
    connection with two events, ['error'] or ['end'] and then ['close'],
    and the listener of each calls [attemptReconnect].  From a state whose
    attempt counter is 0, with the constructor's limit of 5 attempts and
    base delay of 1000 ms, the first failure therefore schedules two
    reconnections, after 1000 and after 2000 ms, the second after 4000
    and after 8000 ms, and the third after 16000 ms and also emits
    [transport:max_reconnect_attempts]; the fourth, fifth and sixth
    failure schedule nothing.  The five delays are not one per failure,
    and the error surfaces at the third failure, not at the sixth. *)
Theorem backoff_exhausted_by_third_failure tm (f1 f2 f3 f4 f5 f6 : failure) :
  reconnectAttempts tm = 0 ->
  maxReconnectAttempts tm = 5 ->
  reconnectDelay tm = 1000 ->
  exists tm' log1 log2 log3 log4 log5 log6,
    on_failures tm [f1; f2; f3; f4; f5; f6]
    = (tm', [log1; log2; log3; log4; log5; log6])
    /\ map scheduled [log1; log2; log3; log4; log5; log6]
       = [[1000; 2000]; [4000; 8000]; [16000]; []; []; []]
    /\ map gave_up [log1; log2; log3; log4; log5; log6]
       = [false; false; true; true; true; true]
    /\ reconnectAttempts tm' = 5 /\ isConnected tm' = false.
Proof.
  destruct tm as [s c n mx d b]. cbn [reconnectAttempts maxReconnectAttempts reconnectDelay].
  intros -> -> ->.
  destruct f1, f2, f3, f4, f5, f6; do 7 eexists;
    (split; [vm_compute; reflexivity|]); vm_compute; repeat split.
Qed.

Lemma backoff_exhausted_by_third_failure_witness :
  exists tm' log1 log2 log3 log4 log5 log6,
    on_failures (connected new_TransportManager)
      [ConnectionError (Error "ECONNREFUSED"); ConnectionError (Error "ECONNREFUSED");
       ConnectionEnded; ConnectionError (Error "ECONNRESET"); ConnectionEnded;
       ConnectionError (Error "ETIMEDOUT")]
    = (tm', [log1; log2; log3; log4; log5; log6])
    /\ map scheduled [log1; log2; log3; log4; log5; log6]
       = [[1000; 2000]; [4000; 8000]; [16000]; []; []; []]
    /\ map gave_up [log1; log2; log3; log4; log5; log6]
       = [false; false; true; true; true; true]
    /\ reconnectAttempts tm' = 5 /\ isConnected tm' = false.
Proof.
  apply (backoff_exhausted_by_third_failure (connected new_TransportManager));
    reflexivity.
Defined.

(** C7, as the code has it.  A frame whose length prefix is 0 does not end
    the connection: the two prefix bytes are taken off the buffer, the
    error of the read on the empty frame ([ERR_BUFFER_OUT_OF_BOUNDS]) is
    logged as a decoding error, nothing is handed to [handleMessage], the
    loop stops for this read, and the manager is otherwise unchanged, so
    that no reconnection is scheduled and the bytes that follow are parsed
    as the next frame.  No prefix announces more than 65535 bytes, so no
    frame reaches the 16 MiB bound. *)
Theorem zero_length_frame_skipped tm (b : byte) (rest : Buffer) :
  buffer tm = [] ->
  handleIncomingData tm (x00 :: x00 :: b :: rest)
  = Some (set_buffer tm (b :: rest),
          [Log "error" "Error decoding message:" (ErrArg ERR_BUFFER_OUT_OF_BOUNDS)])
  /\ isConnected (set_buffer tm (b :: rest)) = isConnected tm
  /\ reconnectAttempts (set_buffer tm (b :: rest)) = reconnectAttempts tm
  /\ (forall buf len, readUInt16BE buf 0 = Ok len -> 0 <= len <= 65535).
Proof.
  intros Hb. split; [|split; [done|split; [done|]]].
  - unfold handleIncomingData. rewrite Hb. cbn [app].
    cbn [length buffer set_buffer process].
    rewrite decide_True by (simpl; lia).
    unfold parseMessage. cbn [buffer set_buffer length].
    rewrite decide_False by lia.
    change (readUInt16BE (x00 :: x00 :: b :: rest) 0) with (Ok 0 : result Z).
    cbn match. rewrite decide_False by lia.
    reflexivity.
  - intros buf len. apply readUInt16BE_range.
Qed.

Lemma zero_length_frame_skipped_witness :
  handleIncomingData (connected new_TransportManager) [x00; x00; x05]
  = Some (set_buffer (connected new_TransportManager) [x05],
          [Log "error" "Error decoding message:" (ErrArg ERR_BUFFER_OUT_OF_BOUNDS)])
  /\ isConnected (set_buffer (connected new_TransportManager) [x05])
     = isConnected (connected new_TransportManager)
  /\ reconnectAttempts (set_buffer (connected new_TransportManager) [x05])
     = reconnectAttempts (connected new_TransportManager)
  /\ (forall buf len, readUInt16BE buf 0 = Ok len -> 0 <= len <= 65535).
Proof.
  apply (zero_length_frame_skipped (connected new_TransportManager) x05 []).
  reflexivity.
Defined.

(** C7 as stated fails: after a frame with length prefix 0 the manager is
    still connected and no reconnection is scheduled. *)
Lemma zero_length_frame_keeps_connection :
  exists tm' log,
    handleIncomingData (connected new_TransportManager) [x00; x00; x05] = Some (tm', log)
    /\ isConnected tm' = true
    /\ reconnectAttempts tm' = 0
    /\ scheduled log = []
    /\ buffer tm' = [x05].
Proof. do 2 eexists. repeat split. Qed.

(** C8 (oversized payload).  A [sendMessage] whose payload is longer than
    65526 bytes throws before anything is written: the manager, with its
    socket and connection flag, is returned unchanged.  On a connected
    manager the exception is the [RangeError] of a Buffer write (of the
    length prefix, when the type, id and timestamp are in range). *)
Theorem oversized_payload_rejected now generated tm type (data : Buffer) id :
  65526 < Z.of_nat (length data) ->
  exists error,
    sendMessage now generated tm type data id
    = (Throw error, tm, [Log "error" "Error sending message:" (ErrArg error)])
    /\ error = (if isConnected tm && bool_decide (is_Some (socket tm))
                then ERR_OUT_OF_RANGE
                else Error "Not connected to server").
Proof.
  intros Hlen. unfold sendMessage.
  destruct (isConnected tm); [|by eexists].
  destruct (bool_decide (is_Some (socket tm))); [|by eexists].
  cbn [negb orb andb].
  unfold writeUInt8, writeUInt32BE, writeUInt16BE, checkInt, copy, alloc.
  destruct (decide (0 <= type <= 255)); [|by eexists].
  rewrite decide_True by (rewrite length_replicate; lia). cbn [rbind].
  destruct (decide (0 <= or_generate id generated <= 4294967295)); [|by eexists].
  rewrite decide_True by (rewrite length_insert, length_replicate; lia). cbn [rbind].
  destruct (decide (0 <= now / 1000 <= 4294967295)); [|by eexists].
  rewrite decide_True by (rewrite !length_insert, length_replicate; lia). cbn [rbind].
  rewrite length_inserts, !length_insert, length_replicate.
  rewrite decide_False by lia. by eexists.
Qed.

Lemma oversized_payload_rejected_witness :
  let tm := connected new_TransportManager in
  let data := replicate (Z.to_nat 65527) x00 in
  exists error,
    sendMessage 5000 7 tm 1 data None
    = (Throw error, tm, [Log "error" "Error sending message:" (ErrArg error)])
    /\ error = (if isConnected tm && bool_decide (is_Some (socket tm))
                then ERR_OUT_OF_RANGE
                else Error "Not connected to server").
Proof.
  intros tm data. apply (oversized_payload_rejected 5000 7 tm 1 data None).
  unfold data. rewrite length_replicate. lia.
Defined.

End TransportFacts.

(** ** The small platform obeys the laws *)

Module ToyFacts.
Import Buf Crypto Toy.

Lemma strip_prefix_app (p s : string) : strip_prefix p (p +:+ s) = Some s.
Proof.
  induction p as [|a p IH]; simpl; [done|].
  by rewrite decide_True.
Qed.

Lemma append_inv_head (p s1 s2 : string) : p +:+ s1 = p +:+ s2 -> s1 = s2.
Proof.
  induction p as [|a p IH]; simpl; [done|].
  intros [= H]. by apply IH.
Qed.

Lemma toy_decrypt_encrypt password text :
  toy_decrypt password (toy_encrypt password text) = Ok text.
Proof. unfold toy_decrypt, toy_encrypt. by rewrite strip_prefix_app. Qed.

(** Induction on JSON trees, with the property available on every element
    of an array and on every value of an object. *)
Lemma json_nested_ind (Q : json -> Prop) :
  Q JNull -> (forall b, Q (JBool b)) -> (forall n, Q (JNumber n)) ->
  (forall s, Q (JString s)) ->
  (forall items, Forall Q items -> Q (JArray items)) ->
  (forall fields, Forall (fun kx => Q (snd kx)) fields -> Q (JObject fields)) ->
  forall j, Q j.
Proof.
  intros HN HB HZ HS HA HO. fix IH 1. intros [| b | n | s | items | fields].
  - exact HN.
  - apply HB.
  - apply HZ.
  - apply HS.
  - apply HA. induction items as [|x items IHitems]; constructor.
    + apply IH.
    + exact IHitems.
  - apply HO. induction fields as [|kx fields IHfields]; constructor.
    + apply IH.
    + exact IHfields.
Qed.

Lemma size_pos (j : json) : (1 <= size j)%nat.
Proof. destruct j; simpl; lia. Qed.

Lemma read_nat_write (n : nat) (k : string) : read_nat (write_nat n k) = Some (n, k).
Proof. induction n as [|n IH]; simpl; [done|]. by rewrite IH. Qed.

Lemma read_string_write (s k : string) : read_string (write_string s k) = Some (s, k).
Proof. induction s as [|a s IH]; simpl; [done|]. by rewrite IH. Qed.

Lemma length_write_nat (n : nat) (k : string) :
  String.length (write_nat n k) = (1 + n + String.length k)%nat.
Proof. induction n as [|n IH]; simpl; [done|]. rewrite IH. lia. Qed.

Lemma length_write_string (s k : string) :
  String.length (write_string s k) = (1 + 2 * String.length s + String.length k)%nat.
Proof. induction s as [|a s IH]; simpl; [done|]. rewrite IH. lia. Qed.

Lemma length_write_json (j : json) : forall k,
  String.length (write_json j k) = (size j + String.length k)%nat.
Proof.
  induction j as [| b | n | s | items IH | fields IH] using json_nested_ind; intros k.
  - done.
  - by destruct b.
  - simpl. case_decide; simpl; rewrite length_write_nat; lia.
  - simpl. rewrite length_write_string. lia.
  - simpl. f_equal. induction IH as [|x items Hx _ IHitems]; simpl; [done|].
    rewrite Hx, IHitems. lia.
  - simpl. f_equal. induction IH as [|[key x] fields Hx _ IHfields]; simpl; [done|].
    simpl in Hx. rewrite length_write_string, Hx, IHfields. lia.
Qed.

(** A written tree is never mistaken for the end of an array, nor a
    written key for the end of an object. *)
Lemma read_items_step (x : json) (acc : string) (fuel : nat) :
  read_items (S fuel) (write_json x acc)
  = match read_json fuel (write_json x acc) with
    | Some (x', s') =>
        match read_items fuel s' with
        | Some (items, k) => Some (x' :: items, k)
        | None => None
        end
    | None => None
    end.
Proof.
  destruct x as [| [|] | n | s | items | fields]; try reflexivity.
  simpl. case_decide; reflexivity.
Qed.

Lemma read_fields_step (key : string) (acc : string) (fuel : nat) :
  read_fields (S fuel) (write_string key acc)
  = match read_string (write_string key acc) with
    | Some (key', s') =>
        match read_json fuel s' with
        | Some (x, s'') =>
            match read_fields fuel s'' with
            | Some (fields, k) => Some ((key', x) :: fields, k)
            | None => None
            end
        | None => None
        end
    | None => None
    end.
Proof. destruct key; reflexivity. Qed.

(** Reading undoes writing, given one unit of fuel per character. *)
Lemma read_json_write (j : json) : forall fuel k,
  (size j <= fuel)%nat -> read_json fuel (write_json j k) = Some (j, k).
Proof.
  induction j as [| b | n | s | items IH | fields IH] using json_nested_ind;
    intros [|fuel] k Hfuel; cbn [size] in Hfuel; try lia.
  - done.
  - by destruct b.
  - simpl. case_decide; simpl; rewrite read_nat_write; do 3 f_equal; lia.
  - simpl. by rewrite read_string_write.
  - cbn [write_json read_json].
    assert (forall fuel' k',
      (1 + foldr (fun x acc => size x + acc) 0 items <= fuel')%nat ->
      read_items fuel' (fold_right (fun x acc => write_json x acc) (String "]" k') items)
      = Some (items, k')) as Hitems.
    { clear fuel k Hfuel.
      induction IH as [|x items Hx _ IHitems]; intros [|fuel'] k' Hfuel;
        simpl in Hfuel; try lia; [done|].
      cbn [fold_right]. rewrite read_items_step.
      rewrite Hx by lia. pose proof (size_pos x).
      rewrite IHitems by lia. done. }
    rewrite Hitems by lia. done.
  - cbn [write_json read_json].
    assert (forall fuel' k',
      (1 + foldr (fun kx acc => 1 + 2 * String.length (fst kx) + size (snd kx) + acc)
             0 fields <= fuel')%nat ->
      read_fields fuel'
        (fold_right (fun kx acc => write_string (fst kx) (write_json (snd kx) acc))
                    (String "}" k') fields)
      = Some (fields, k')) as Hfields.
    { clear fuel k Hfuel.
      induction IH as [|[key x] fields Hx _ IHfields]; intros [|fuel'] k' Hfuel;
        cbn [foldr fst snd] in Hfuel; try lia; [done|].
      cbn [fold_right fst snd]. rewrite read_fields_step, read_string_write.
      simpl in Hx. rewrite Hx by lia.
      rewrite IHfields by lia. done. }
    rewrite Hfields by lia. done.
Qed.

Lemma toy_parse_write (j : json) : toy_parse (toy_write j) = Ok j.
Proof.
  unfold toy_parse, toy_write.
  rewrite read_json_write; [done|].
  rewrite length_write_json. lia.
Qed.

Lemma toy_laws : PlatformLaws toy.
Proof.
  split.
  - apply toy_decrypt_encrypt.
  - intros j _. apply toy_parse_write.
Qed.


End ToyFacts.

(** ** Sessions and envelopes *)

Module CryptoFacts.
Import Buf Crypto Tamper BufFacts.

Lemma flip_ascii_neq (k : nat) (a a' : ascii) : flip_ascii k a = Some a' -> a' <> a.
Proof.
  destruct a as [b0 b1 b2 b3 b4 b5 b6 b7].
  do 8 (destruct k as [|k]; [intros [= <-]; intros [= H]; revert H;
                             match goal with |- negb ?b = ?b -> _ => by destruct b end|]).
  discriminate.
Qed.

(** A string with one bit inverted is another string. *)
Lemma flip_bit_neq (s : string) : forall pos k s', flip_bit s pos k = Some s' -> s' <> s.
Proof.
  induction s as [|a s IH]; intros [|pos] k s'; simpl; try discriminate.
  - destruct (flip_ascii k a) as [a'|] eqn:Ha; [|discriminate].
    intros [= <-] [= Heq]. by apply flip_ascii_neq in Ha.
  - destruct (flip_bit s pos k) as [t|] eqn:Ht; [|discriminate].
    intros [= <-] [= Heq]. by apply IH in Ht.
Qed.

Section WithPlatform.
Context {P : Platform}.

Lemma getOrCreateSession_lookup rnd (store : gmap string Session) recipient session store' :
  getOrCreateSession rnd store recipient = (session, store') ->
  store' !! recipient = Some session.
Proof.
  unfold getOrCreateSession.
  destruct (store !! recipient) as [s|] eqn:Hs; intros [= <- <-]; [done|].
  apply lookup_insert_eq.
Qed.

Lemma getOrCreateSession_established rnd (store : gmap string Session) recipient session :
  store !! recipient = Some session ->
  getOrCreateSession rnd store recipient = (session, store).
Proof. intros Hs. unfold getOrCreateSession. by rewrite Hs. Qed.

(** What a successful [encryptMessage] returns. *)
Lemma encryptMessage_Ok_inv rnd store recipient message messageType e store' :
  encryptMessage rnd store recipient message messageType = (Ok e, store') ->
  exists session text,
    store' !! recipient = Some session
    /\ JSON_stringify message = Some text
    /\ let J := sealed rnd recipient messageType session
                  (aes_256_cbc_encrypt (draw_messageKey rnd) text) in
       let c := aes_256_cbc_encrypt (chainKey session) (JSON_write J) in
       e = {| iv := VString (base64 (draw_envelopeIv rnd));
              ciphertext := c;
              signature := hmac_sha256_hex (chainKey session) c |}.
Proof.
  unfold encryptMessage.
  destruct (getOrCreateSession rnd store recipient) as [session store1] eqn:Hg.
  apply getOrCreateSession_lookup in Hg.
  unfold encryptContent.
  destruct (JSON_stringify message) as [text|] eqn:Htext; [|discriminate].
  cbn [cipher_text rbind]. unfold encryptEnvelope.
  intros [= <- <-]. exists session, text. repeat split; done.
Qed.

Lemma wf_Buffer_toJSON (bytes : Buffer) : wf_json (Buffer_toJSON bytes) = true.
Proof.
  unfold Buffer_toJSON. cbn [wf_json map fst snd forallb].
  assert (forallb wf_json (map (fun b => JNumber (Z_of_byte b)) bytes) = true) as ->.
  { induction bytes as [|b bytes IH]; [done|]. cbn [map forallb wf_json].
    rewrite IH, andb_true_r. apply bool_decide_eq_true_2.
    pose proof (Z_of_byte_range b). lia. }
  reflexivity.
Qed.

Lemma wf_sealed rnd recipient messageType session content :
  - 2 ^ 53 < draw_messageId rnd < 2 ^ 53 ->
  - 2 ^ 53 < draw_now rnd < 2 ^ 53 ->
  wf_json (sealed rnd recipient messageType session content) = true.
Proof.
  intros Hid Hnow. unfold sealed. cbn [wf_json map fst snd forallb].
  rewrite wf_Buffer_toJSON.
  rewrite (bool_decide_eq_true_2 _ Hid), (bool_decide_eq_true_2 _ Hnow).
  reflexivity.
Qed.

(** An envelope returned by [encryptMessage] opens under the session of
    its recipient: the tag verifies, the cipher is undone and the text
    parses to the tree that was sealed. *)
Lemma decryptEnvelope_sealed {laws : PlatformLaws P} rnd recipient messageType session content :
  - 2 ^ 53 < draw_messageId rnd < 2 ^ 53 ->
  - 2 ^ 53 < draw_now rnd < 2 ^ 53 ->
  let J := sealed rnd recipient messageType session content in
  let c := aes_256_cbc_encrypt (chainKey session) (JSON_write J) in
  forall v,
    decryptEnvelope {| iv := v; ciphertext := c;
                       signature := hmac_sha256_hex (chainKey session) c |} session
    = Ok J.
Proof.
  intros Hid Hnow J c v. unfold decryptEnvelope. cbn [ciphertext signature].
  rewrite decide_False by (intros H; by apply H).
  unfold c. rewrite decrypt_encrypt. cbn [rbind].
  apply parse_write. by apply wf_sealed.
Qed.

(** C1, at the point where it fails.  Whatever the message, the envelope
    that [encryptMessage] returns cannot be opened by [decryptMessage]
    under the same session: the message key travels in the envelope as a
    [Buffer], comes back from [JSON.parse] as the object
    [{type: 'Buffer', data: [...]}], and [createDecipher] rejects it with a
    [TypeError].  (The draws of [Math.random] and [Date.now] are safe
    integers.) *)
Theorem sealed_message_not_decryptable {laws : PlatformLaws P}
    rnd store recipient message messageType e store' :
  - 2 ^ 53 < draw_messageId rnd < 2 ^ 53 ->
  - 2 ^ 53 < draw_now rnd < 2 ^ 53 ->
  encryptMessage rnd store recipient message messageType = (Ok e, store') ->
  decryptMessage store' recipient e = Throw (TypeError "ERR_INVALID_ARG_TYPE").
Proof.
  intros Hid Hnow Henc.
  apply encryptMessage_Ok_inv in Henc as (session & text & Hs & _ & ->).
  unfold decryptMessage, getSession. rewrite Hs.
  rewrite decryptEnvelope_sealed by done.
  reflexivity.
Qed.

(** A tag that does not verify stops [decryptEnvelope] at the comparison:
    neither the decipher nor the parser of the platform is consulted. *)
Lemma decryptEnvelope_mismatch (e : EncryptedEnvelope) (session : Session) :
  hmac_sha256_hex (chainKey session) (ciphertext e) <> signature e ->
  decryptEnvelope e session = Throw (Error "Invalid message signature").
Proof. intros Hne. unfold decryptEnvelope. by rewrite decide_True. Qed.

(** This holds for every envelope, tampered with or not: an envelope
    whose tag does not verify under the session of the sender is
    [rejected]. *)
Lemma mismatch_rejected store senderId session (e : EncryptedEnvelope) :
  getSession store senderId = Some session ->
  hmac_sha256_hex (chainKey session) (ciphertext e) <> signature e ->
  rejected store senderId session e.
Proof.
  intros Hs Hne. split; [by apply decryptEnvelope_mismatch|].
  split.
  - unfold decryptMessage. by rewrite Hs, decryptEnvelope_mismatch.
  - intros decipher parse. unfold decryptMessage. rewrite Hs.
    unfold decryptEnvelope. cbn [hmac_sha256_hex with_decipher].
    by rewrite decide_True.
Qed.

(** C2 (integrity rejection).  Take an envelope returned by
    [encryptMessage] and invert one bit of its ciphertext or of its
    signature.  If the bit is in the signature, [decryptEnvelope], and
    with it [decryptMessage], under the session of the recipient, throws
    "Invalid message signature".  If the bit is in the ciphertext, they
    throw the same, unless the altered ciphertext has the tag of the
    original under the chain key.  The exception is raised by the
    comparison of the tags, which precedes the decipher: the envelope is
    rejected whatever the decipher and the parser of the platform are.
    Nothing is assumed of the platform. *)
Theorem tampered_envelope_rejected
    rnd store recipient message messageType e store' e' :
  encryptMessage rnd store recipient message messageType = (Ok e, store') ->
  single_bit_flip e e' ->
  exists session,
    getSession store' recipient = Some session
    /\ (signature e' <> signature e -> rejected store' recipient session e')
    /\ (rejected store' recipient session e'
        \/ (signature e' = signature e /\ ciphertext e' <> ciphertext e
            /\ same_tag session e e')).
Proof.
  intros Henc Hflip.
  apply encryptMessage_Ok_inv in Henc as (session & text & Hs & _ & He).
  assert (signature e = hmac_sha256_hex (chainKey session) (ciphertext e)) as Hsig
    by (cbv zeta in He; by rewrite He).
  clear He. exists session. split; [exact Hs|].
  destruct Hflip as [pos k c' Hc | pos k s' Hs'].
  - apply flip_bit_neq in Hc. cbn [with_ciphertext signature ciphertext].
    split; [done|]. unfold same_tag. cbn [with_ciphertext ciphertext].
    destruct (decide (hmac_sha256_hex (chainKey session) c'
                      = hmac_sha256_hex (chainKey session) (ciphertext e)))
      as [Heq|Hne].
    + by right.
    + left. apply mismatch_rejected; [exact Hs|].
      cbn [with_ciphertext signature ciphertext]. by rewrite Hsig.
  - apply flip_bit_neq in Hs'.
    assert (rejected store' recipient session (with_signature e s')) as Hrej.
    { apply mismatch_rejected; [exact Hs|].
      cbn [with_signature signature ciphertext]. rewrite <- Hsig.
      intros Heq. by apply Hs'. }
    split; [done|]. by left.
Qed.

(** [encryptMessage] returns the store it was given when the recipient has
    a session. *)
Lemma encryptMessages_established store recipient session
    (calls : list (Entropy * value * string)) :
  store !! recipient = Some session ->
  encryptMessages store recipient calls !! recipient = Some session.
Proof.
  revert store. induction calls as [|[[rnd message] messageType] calls IH];
    intros store Hs; [done|].
  cbn [encryptMessages]. apply IH.
  unfold encryptMessage.
  rewrite (getOrCreateSession_established rnd store recipient session Hs).
  exact Hs.
Qed.

(** C6, as the code has it.  [encryptMessage] leaves an established
    session as it is, and with it the [messageCount] that [createSession]
    set to 0: after any number of calls the session in the store is the
    one that was there before, with the count it had. *)
Theorem message_count_unchanged store recipient session
    (calls : list (Entropy * value * string)) :
  store !! recipient = Some session ->
  encryptMessages store recipient calls !! recipient = Some session
  /\ messageCount <$> (encryptMessages store recipient calls !! recipient)
     = Some (messageCount session).
Proof.
  intros Hs. rewrite (encryptMessages_established store recipient session calls Hs).
  done.
Qed.

(** A session that the first call creates starts with [messageCount] 0 and
    keeps it. *)
Lemma message_count_of_new_session store recipient rnd message messageType
    (calls : list (Entropy * value * string)) :
  store !! recipient = None ->
  messageCount <$> (encryptMessages store recipient
                      ((rnd, message, messageType) :: calls) !! recipient)
  = Some 0.
Proof.
  intros Hs. cbn [encryptMessages].
  rewrite (encryptMessages_established _ _ (createSession rnd recipient)); [done|].
  unfold encryptMessage, getOrCreateSession. rewrite Hs. cbn [snd].
  apply lookup_insert_eq.
Qed.

(** C9 (the iv is not read).  [decryptMessage] and [decryptEnvelope] give
    the same result, value or exception, whatever the [iv] of the
    envelope; and [decryptContent] gives the same result with and without
    the [iv] property of the encrypted content. *)
Theorem decrypt_ignores_iv store senderId session (e : EncryptedEnvelope) (v : value)
    (w : json) (fields : list (string * json)) (messageKey : option json) :
  decryptMessage store senderId (with_iv e v) = decryptMessage store senderId e
  /\ decryptEnvelope (with_iv e v) session = decryptEnvelope e session
  /\ decryptContent (Some (JObject (("iv", w) :: fields))) messageKey
     = decryptContent (Some (JObject fields)) messageKey.
Proof. repeat split. Qed.

(** C10 (deterministic sealing).  Two calls of [encryptEnvelope] on the
    same envelope and session, with any two draws of the iv, throw the
    same exception or return the same [ciphertext] and the same
    [signature]; the draw only shows in the [iv] property. *)
Theorem encryptEnvelope_deterministic (iv1 iv2 : Buffer) (envelope : value)
    (session : Session) :
  match encryptEnvelope iv1 envelope session, encryptEnvelope iv2 envelope session with
  | Ok e1, Ok e2 =>
      ciphertext e1 = ciphertext e2 /\ signature e1 = signature e2
      /\ iv e1 = VString (base64 iv1) /\ iv e2 = VString (base64 iv2)
  | Throw x1, Throw x2 => x1 = x2
  | _, _ => False
  end.
Proof.
  unfold encryptEnvelope.
  destruct (cipher_text (chainKey session) (JSON_stringify envelope)); simpl; done.
Qed.

End WithPlatform.

(** *** On the small platform *)

Import Toy ToyFacts.

Lemma sealed_message_not_decryptable_witness :
  decryptMessage (P := toy) sample_store "peer" sample_envelope
  = Throw (TypeError "ERR_INVALID_ARG_TYPE").
Proof.
  apply (sealed_message_not_decryptable (P := toy) (laws := toy_laws)
           draws ∅ "peer" (VString "hi") "text").
  - vm_compute. split; reflexivity.
  - vm_compute. split; reflexivity.
  - vm_compute. reflexivity.
Defined.

Lemma tampered_envelope_rejected_witness :
  let e' := with_ciphertext sample_envelope
              (default "" (flip_bit (ciphertext sample_envelope) 3 5)) in
  exists session,
    getSession sample_store "peer" = Some session
    /\ (signature e' <> signature sample_envelope
        -> rejected (P := toy) sample_store "peer" session e')
    /\ (rejected (P := toy) sample_store "peer" session e'
        \/ (signature e' = signature sample_envelope
            /\ ciphertext e' <> ciphertext sample_envelope
            /\ same_tag (P := toy) session sample_envelope e')).
Proof.
  apply (tampered_envelope_rejected (P := toy)
           draws ∅ "peer" (VString "hi") "text" sample_envelope).
  - vm_compute. reflexivity.
  - apply (flip_in_ciphertext sample_envelope 3 5). vm_compute. reflexivity.
Defined.

(** On the small platform, whose tags do not collide, the envelope with
    the inverted bit is rejected. *)
Example tampered_sample_rejected :
  let e' := with_ciphertext sample_envelope
              (default "" (flip_bit (ciphertext sample_envelope) 3 5)) in
  decryptMessage (P := toy) sample_store "peer" e'
  = Throw (Error "Invalid message signature").
Proof. vm_compute. reflexivity. Qed.

Lemma message_count_unchanged_witness :
  let calls := [(draws, VString "one", "text"); (draws, VNumber 2, "text");
                (draws, VUndefined, "text")] in
  let session := createSession (P := toy) draws "peer" in
  encryptMessages (P := toy) sample_store "peer" calls !! "peer" = Some session
  /\ messageCount <$> (encryptMessages (P := toy) sample_store "peer" calls !! "peer")
     = Some (messageCount session).
Proof.
  apply (message_count_unchanged (P := toy) sample_store "peer"
           (createSession (P := toy) draws "peer")).
  vm_compute. reflexivity.
Defined.

(** C6 as stated fails: after two calls of [encryptMessage] on a session
    created with [messageCount] 0, the count is 0 and not 2. *)
Lemma message_count_stays_zero :
  let calls := [(draws, VString "one", "text"); (draws, VString "two", "text")] in
  let store := encryptMessages (P := toy) {[ "peer" := createSession (P := toy) draws "peer" ]}
                 "peer" calls in
  messageCount <$> (store !! "peer") = Some 0
  /\ messageCount <$> (store !! "peer") <> Some (Z.of_nat (length calls)).
Proof. vm_compute. split; [reflexivity | discriminate]. Qed.

End CryptoFacts.

(** ** Streams of frames, short frames, and the life of a connection *)

Module TransportMoreFacts.
Import Buf Transport TransportMore BufFacts TransportFacts.

Lemma set_buffer_same tm : set_buffer tm (buffer tm) = tm.
Proof. by destruct tm. Qed.

(** The loop on a buffer that holds complete frames and then a part of one
    more: the frames are delivered in order and the part stays. *)
Lemma process_frames (ms : list Message) : forall tm p fuel,
  Forall valid_frame ms ->
  buffer tm = wire_stream ms ++ p ->
  (p = [] \/ exists m, valid_frame m /\ part_of p m) ->
  (length (buffer tm) <= fuel)%nat ->
  process fuel tm = Some (Ok tt, set_buffer tm p, concat (map handleMessage ms)).
Proof.
  induction ms as [|m ms IH]; intros tm p fuel Hv Hb Hp Hfuel.
  - simpl in Hb. rewrite <- Hb, set_buffer_same. simpl.
    destruct (decide (length (buffer tm) = 0)%nat) as [H0|H0].
    { apply process_empty. by apply nil_length_inv. }
    destruct Hp as [->|(m & Hm & Hlt & Htake)]; [by rewrite Hb in H0|].
    destruct fuel as [|fuel]; [lia|]. cbn [process].
    rewrite decide_True by lia.
    rewrite (parseMessage_partial tm m (length p)); [done|done|done|].
    by rewrite Hb.
  - inversion Hv as [|? ? Hm Hms]; subst.
    unfold wire_stream in Hb. cbn [map concat] in Hb. rewrite <- app_assoc in Hb.
    fold (wire_stream ms) in Hb.
    assert (11 <= length (buffer tm))%nat as Hlen.
    { rewrite Hb, length_app, wire_layout_length. lia. }
    destruct fuel as [|fuel]; [lia|]. cbn [process].
    rewrite decide_True by lia.
    rewrite (parseMessage_frame tm m (wire_stream ms ++ p)) by done.
    rewrite (IH (set_buffer tm (wire_stream ms ++ p)) p fuel); try done.
    + simpl. rewrite Hb, length_app, wire_layout_length in Hfuel. lia.
Qed.

Lemma handleIncomingData_frames tm data (ms : list Message) p :
  Forall valid_frame ms ->
  buffer tm ++ data = wire_stream ms ++ p ->
  (p = [] \/ exists m, valid_frame m /\ part_of p m) ->
  handleIncomingData tm data = Some (set_buffer tm p, concat (map handleMessage ms)).
Proof.
  intros Hv Hb Hp. unfold handleIncomingData.
  rewrite (process_frames ms (set_buffer tm (buffer tm ++ data)) p); done.
Qed.

Lemma wire_stream_cons m ms : wire_stream (m :: ms) = wire_layout m ++ wire_stream ms.
Proof. reflexivity. Qed.

Lemma wire_stream_app ms1 ms2 :
  wire_stream (ms1 ++ ms2) = wire_stream ms1 ++ wire_stream ms2.
Proof. unfold wire_stream. by rewrite map_app, concat_app. Qed.

(** Any first part of a stream is some complete frames and a part of the
    next one. *)
Lemma stream_prefix_split (ms : list Message) : forall q r,
  q ++ r = wire_stream ms ->
  exists ms1 ms2 p,
    ms = ms1 ++ ms2 /\ q = wire_stream ms1 ++ p /\ p ++ r = wire_stream ms2
    /\ (p = [] \/ exists m rest, ms2 = m :: rest /\ part_of p m).
Proof.
  induction ms as [|m ms IH]; intros q r Hq.
  - apply app_eq_nil in Hq as [-> ->]. exists [], [], []. repeat split. by left.
  - rewrite wire_stream_cons in Hq.
    destruct (decide (length q < length (wire_layout m))%nat) as [Hlt|Hge].
    + exists [], (m :: ms), q. split; [done|]. split; [done|]. split; [done|].
      right. exists m, ms. split; [done|]. split; [done|].
      apply (f_equal (take (length q))) in Hq.
      rewrite take_app_length in Hq.
      rewrite take_app_le in Hq by lia. exact Hq.
    + assert (q = wire_layout m ++ drop (length (wire_layout m)) q) as Hqm.
      { apply (f_equal (take (length (wire_layout m)))) in Hq.
        rewrite take_app_length, take_app_le in Hq by lia.
        rewrite <- Hq at 1. by rewrite take_drop. }
      rewrite Hqm, <- app_assoc in Hq. apply app_inv_head in Hq.
      destruct (IH _ _ Hq) as (ms1 & ms2 & p & -> & Hd & Hr & Hp).
      exists (m :: ms1), ms2, p. split; [done|]. split; [|by split].
      rewrite wire_stream_cons, <- app_assoc, <- Hd. exact Hqm.
Qed.

Lemma wire_stream_nil_inv ms : wire_stream ms = [] -> ms = [].
Proof.
  destruct ms as [|m ms]; [done|]. rewrite wire_stream_cons.
  intros H. apply (f_equal length) in H.
  rewrite length_app, wire_layout_length in H. simpl in H. lia.
Qed.

(** Reads that add up to a stream of frames deliver the frames in order,
    from a buffer that holds a part of the first one. *)
Lemma feed_stream (chunks : list Buffer) : forall tm (ms : list Message),
  Forall valid_frame ms ->
  buffer tm ++ concat chunks = wire_stream ms ->
  (buffer tm = [] \/ exists m rest, ms = m :: rest /\ part_of (buffer tm) m) ->
  feed tm chunks = Some (set_buffer tm [], concat (map handleMessage ms)).
Proof.
  induction chunks as [|c chunks IH]; intros tm ms Hv Hs Hp.
  - simpl in Hs. rewrite app_nil_r in Hs.
    destruct Hp as [Hnil|(m & rest & -> & Hlt & _)].
    + rewrite Hnil in Hs. symmetry in Hs. apply wire_stream_nil_inv in Hs as ->.
      simpl. by rewrite <- Hnil, set_buffer_same.
    + rewrite Hs, wire_stream_cons, length_app in Hlt. lia.
  - cbn [concat] in Hs. rewrite app_assoc in Hs.
    destruct (stream_prefix_split ms _ _ Hs) as (ms1 & ms2 & p & -> & Hq & Hr & Hp').
    apply Forall_app in Hv as [Hv1 Hv2].
    cbn [feed].
    rewrite (handleIncomingData_frames tm c ms1 p Hv1 Hq).
    2:{ destruct Hp' as [->|(m & rest & -> & Hpart)]; [by left|].
        right. exists m. split; [|done]. by inversion Hv2. }
    rewrite (IH (set_buffer tm p) ms2); [|done|done|].
    + by rewrite map_app, concat_app.
    + simpl. destruct Hp' as [->|Hp']; [by left|by right].
Qed.

Lemma received_handleMessage m log : received (handleMessage m ++ log) = m :: received log.
Proof.
  unfold handleMessage, route, received. cbn [app omap list_omap].
  repeat case_decide; reflexivity.
Qed.

Lemma received_frames (ms : list Message) : received (concat (map handleMessage ms)) = ms.
Proof.
  induction ms as [|m ms IH]; [done|].
  cbn [map concat]. by rewrite received_handleMessage, IH.
Qed.

(** X1 (stream reassembly).  For any frames that fit the wire and any way
    of cutting their bytes, one after the other, into successive reads,
    the read loop hands exactly these frames to [handleMessage], in
    order, and ends with an empty buffer. *)
Theorem stream_reassembly (ms : list Message) (chunks : list Buffer) rx :
  Forall valid_frame ms ->
  buffer rx = [] ->
  concat chunks = wire_stream ms ->
  exists effects,
    feed rx chunks = Some (set_buffer rx [], effects)
    /\ effects = concat (map handleMessage ms)
    /\ received effects = ms.
Proof.
  intros Hv Hb Hs. exists (concat (map handleMessage ms)).
  split; [|split; [done|apply received_frames]].
  apply feed_stream; [done| |by left]. by rewrite Hb.
Qed.

Lemma stream_reassembly_witness :
  let m1 := {| msg_type := 1; msg_id := 258; msg_timestamp := 5; msg_data := [x68; x69] |} in
  let m2 := {| msg_type := 9; msg_id := 7; msg_timestamp := 6; msg_data := [] |} in
  let chunks :=
    [[x00; x0b; x01; x00; x00; x01; x02; x00; x00; x00; x05; x68; x69; x00];
     [x09; x09; x00; x00; x00]; []; [x07; x00; x00; x00; x06]] in
  exists effects,
    feed new_TransportManager chunks = Some (set_buffer new_TransportManager [], effects)
    /\ effects = concat (map handleMessage [m1; m2])
    /\ received effects = [m1; m2].
Proof.
  intros m1 m2 chunks.
  apply (stream_reassembly [m1; m2] chunks new_TransportManager).
  - repeat constructor; simpl; lia.
  - reflexivity.
  - reflexivity.
Defined.

(** *** Sends in a row *)







(** *** Frames shorter than a header *)




(** *** Any number of failures *)

Lemma attemptReconnect_below tm :
  reconnectAttempts tm < maxReconnectAttempts tm ->
  attemptReconnect tm
  = (set_reconnectAttempts tm (reconnectAttempts tm + 1),
     [Log "info" "Attempting reconnection"
        (NumArg (reconnectDelay tm * 2 ^ reconnectAttempts tm));
      SetTimeout (reconnectDelay tm * 2 ^ reconnectAttempts tm)]).
Proof.
  intros Hlt. unfold attemptReconnect. rewrite decide_False by lia.
  cbn [reconnectAttempts reconnectDelay set_reconnectAttempts].
  by replace (reconnectAttempts tm + 1 - 1) with (reconnectAttempts tm) by lia.
Qed.

Lemma attemptReconnect_at_limit tm :
  maxReconnectAttempts tm <= reconnectAttempts tm ->
  attemptReconnect tm
  = (tm, [Log "error" "Max reconnection attempts reached" NoArg;
          Emit "transport:max_reconnect_attempts" NoArg]).
Proof. intros Hge. unfold attemptReconnect. by rewrite decide_True by lia. Qed.

(** What one event does to the counter and to the timers. *)
Lemma on_event_step tm ev :
  let '(tm', log) := on_event tm ev in
  isConnected tm' = false
  /\ socket tm' = socket tm /\ buffer tm' = buffer tm
  /\ maxReconnectAttempts tm' = maxReconnectAttempts tm
  /\ reconnectDelay tm' = reconnectDelay tm
  /\ if decide (reconnectAttempts tm < maxReconnectAttempts tm)
     then reconnectAttempts tm' = reconnectAttempts tm + 1
          /\ scheduled log = [reconnectDelay tm * 2 ^ reconnectAttempts tm]
          /\ gave_up log = false
     else reconnectAttempts tm' = reconnectAttempts tm
          /\ scheduled log = []
          /\ gave_up log = true.
Proof.
  destruct ev as [e| |]; cbn [on_event];
    unfold handleConnectionError, handleConnectionClose; case_decide as Hlt.
  1,3,5: by rewrite attemptReconnect_below by done.
  all: by rewrite attemptReconnect_at_limit by (simpl; lia).
Qed.

Lemma scheduled_app (log1 log2 : list effect) :
  scheduled (log1 ++ log2) = scheduled log1 ++ scheduled log2.
Proof. unfold scheduled. apply omap_app. Qed.

(** Any number of events: with the counter at [k] below the limit, [n]
    events in a row schedule reconnections after [reconnectDelay * 2^k],
    [reconnectDelay * 2^(k+1)], ... for the first [maxReconnectAttempts - k]
    of them and none afterwards. *)
Lemma backoff_events (evs : list socket_event) : forall tm,
  0 <= reconnectAttempts tm <= maxReconnectAttempts tm ->
  let '(tm', log) := on_events tm evs in
  reconnectAttempts tm'
  = Z.min (reconnectAttempts tm + Z.of_nat (length evs)) (maxReconnectAttempts tm)
  /\ scheduled log
     = map (fun i => reconnectDelay tm * 2 ^ (reconnectAttempts tm + Z.of_nat i))
           (seq 0 (Z.to_nat (Z.min (Z.of_nat (length evs))
                                   (maxReconnectAttempts tm - reconnectAttempts tm))))
  /\ maxReconnectAttempts tm' = maxReconnectAttempts tm
  /\ reconnectDelay tm' = reconnectDelay tm.
Proof.
  induction evs as [|ev evs IH]; intros tm Hk.
  - cbn [on_events length]. split; [lia|]. split; [|done].
    by replace (Z.to_nat (Z.of_nat 0 `min` (maxReconnectAttempts tm - reconnectAttempts tm)))
      with 0%nat by lia.
  - cbn [on_events].
    pose proof (on_event_step tm ev) as Hstep.
    destruct (on_event tm ev) as [tm1 log1].
    destruct Hstep as (_ & _ & _ & Hmax & Hdelay & Hcase).
    specialize (IH tm1).
    destruct (on_events tm1 evs) as [tm2 log2].
    rewrite scheduled_app. cbn [length].
    case_decide as Hlt.
    + destruct Hcase as (Hk1 & Hs & _).
      destruct IH as (IHk & IHs & IHm & IHd); [lia|].
      rewrite IHk, IHs, Hs, Hk1, Hmax, Hdelay, IHm, IHd.
      split; [lia|]. split; [|done].
      replace (Z.to_nat (Z.of_nat (S (length evs))
                         `min` (maxReconnectAttempts tm - reconnectAttempts tm)))
        with (S (Z.to_nat (Z.of_nat (length evs)
                           `min` (maxReconnectAttempts tm - (reconnectAttempts tm + 1)))))
        by lia.
      cbn [seq map app]. rewrite Z.add_0_r. f_equal.
      rewrite <- seq_shift, map_map. apply map_ext. intros i.
      do 2 f_equal. lia.
    + destruct Hcase as (Hk1 & Hs & _).
      destruct IH as (IHk & IHs & IHm & IHd); [lia|].
      rewrite IHk, IHs, Hs, Hk1, Hmax, Hdelay, IHm, IHd.
      split; [lia|]. split; [|done].
      by replace (Z.to_nat (Z.of_nat (length evs)
                            `min` (maxReconnectAttempts tm - reconnectAttempts tm)))
        with 0%nat by lia;
      replace (Z.to_nat (Z.of_nat (S (length evs))
                         `min` (maxReconnectAttempts tm - reconnectAttempts tm)))
        with 0%nat by lia.
Qed.

(** The failures one after the other are their events one after the
    other. *)
Lemma on_failures_events (fs : list failure) : forall tm,
  let '(tm', logs) := on_failures tm fs in
  on_events tm (concat (map events_of fs)) = (tm', concat logs)
  /\ length logs = length fs.
Proof.
  induction fs as [|f fs IH]; intros tm; [done|].
  cbn [on_failures map concat]. unfold on_failure.
  specialize (IH (on_events tm (events_of f)).1).
  destruct f; cbn [events_of on_events app] in *;
    repeat match goal with
           | |- context [on_event ?t ?e] => destruct (on_event t e) as [? ?]
           end;
    cbn [fst] in IH;
    match goal with
    | |- context [on_failures ?t fs] => destruct (on_failures t fs) as [tm2 logs]
    end;
    destruct IH as [IH IHl];
    destruct (on_events _ (concat (map events_of fs))) as [? ?];
    simplify_eq; cbn [concat length];
    by rewrite ?app_nil_r, <- ?app_assoc, ?IHl.
Qed.

(** X4 (backoff, any number of failures).  Every failure counts twice:
    with the counter at [k] below the limit, [n] consecutive failures
    schedule reconnections after [reconnectDelay * 2^k],
    [reconnectDelay * 2^(k+1)], ... for the first [maxReconnectAttempts - k]
    of their [2 * n] events and none afterwards; the counter ends at
    [min (k + 2 * n) maxReconnectAttempts] and never passes the limit. *)
Theorem backoff_schedule (fs : list failure) tm :
  0 <= reconnectAttempts tm <= maxReconnectAttempts tm ->
  let '(tm', logs) := on_failures tm fs in
  reconnectAttempts tm'
  = Z.min (reconnectAttempts tm + 2 * Z.of_nat (length fs)) (maxReconnectAttempts tm)
  /\ concat (map scheduled logs)
     = map (fun i => reconnectDelay tm * 2 ^ (reconnectAttempts tm + Z.of_nat i))
           (seq 0 (Z.to_nat (Z.min (2 * Z.of_nat (length fs))
                                   (maxReconnectAttempts tm - reconnectAttempts tm))))
  /\ length logs = length fs.
Proof.
  intros Hk.
  pose proof (on_failures_events fs tm) as Hev.
  pose proof (backoff_events (concat (map events_of fs)) tm Hk) as Hback.
  destruct (on_failures tm fs) as [tm' logs]. destruct Hev as [Hev Hlen].
  rewrite Hev in Hback. destruct Hback as (Hc & Hs & _ & _).
  assert (length (concat (map events_of fs)) = (2 * length fs)%nat) as Hn.
  { clear. induction fs as [|f fs IH]; [done|].
    cbn [map concat]. rewrite length_app, IH. destruct f; simpl; lia. }
  rewrite Hn in Hc, Hs.
  replace (Z.of_nat (2 * length fs)) with (2 * Z.of_nat (length fs)) in Hc, Hs by lia.
  split; [exact Hc|]. split; [|exact Hlen].
  rewrite <- Hs. clear. induction logs as [|l logs IH]; [done|].
  cbn [map concat]. by rewrite scheduled_app, IH.
Qed.

Lemma backoff_schedule_witness :
  let tm := set_reconnectAttempts (connected new_TransportManager) 2 in
  let fs := [ConnectionError (Error "ECONNRESET"); ConnectionEnded;
             ConnectionError (Error "ECONNREFUSED")] in
  let '(tm', logs) := on_failures tm fs in
  reconnectAttempts tm'
  = Z.min (reconnectAttempts tm + 2 * Z.of_nat (length fs)) (maxReconnectAttempts tm)
  /\ concat (map scheduled logs)
     = map (fun i => reconnectDelay tm * 2 ^ (reconnectAttempts tm + Z.of_nat i))
           (seq 0 (Z.to_nat (Z.min (2 * Z.of_nat (length fs))
                                   (maxReconnectAttempts tm - reconnectAttempts tm))))
  /\ length logs = length fs.
Proof.
  intros tm fs. apply (backoff_schedule fs tm). simpl. lia.
Defined.

(** *** Disconnecting *)



(** X6 (the buffer outlives the connection).  Neither [disconnect] nor a
    later successful [connect] empties the receive buffer: the first
    bytes of a frame that were read before the disconnect are completed
    by the bytes read on the new connection. *)
Theorem partial_frame_survives_reconnect tm (m : Message) (k : nat) :
  valid_frame m ->
  (k < length (wire_layout m))%nat ->
  buffer tm = take k (wire_layout m) ->
  let tm1 := connected (disconnect tm).1 in
  buffer tm1 = take k (wire_layout m)
  /\ handleIncomingData tm1 (drop k (wire_layout m))
     = Some (set_buffer tm1 [], handleMessage m).
Proof.
  intros Hv Hk Hb tm1. split; [exact Hb|].
  apply handleIncomingData_complete; [done|].
  cbn [tm1 connected disconnect fst buffer]. rewrite Hb. apply take_drop.
Qed.

Lemma partial_frame_survives_reconnect_witness :
  let m := {| msg_type := 1; msg_id := 258; msg_timestamp := 5; msg_data := [x68; x69] |} in
  let tm := set_buffer (connected new_TransportManager) (take 4 (wire_layout m)) in
  let tm1 := connected (disconnect tm).1 in
  buffer tm1 = take 4 (wire_layout m)
  /\ handleIncomingData tm1 (drop 4 (wire_layout m))
     = Some (set_buffer tm1 [], handleMessage m).
Proof.
  intros m tm.
  apply (partial_frame_survives_reconnect tm m 4).
  - unfold valid_frame. simpl. lia.
  - simpl. lia.
  - reflexivity.
Defined.

End TransportMoreFacts.

(** ** Envelopes, contents and the session store *)

Module CryptoMoreFacts.
Import Buf Crypto CryptoMore Tamper BufFacts ToyFacts CryptoFacts.

Lemma toJSON_embed (j : json) : toJSON (embed j) = Some j.
Proof.
  induction j as [| b | n | s | items IH | fields IH] using json_nested_ind;
    try reflexivity.
  - cbn [embed toJSON]. do 2 f_equal.
    induction IH as [|x items Hx _ IHitems]; [done|].
    cbn [map]. by rewrite Hx, IHitems.
  - cbn [embed toJSON]. do 2 f_equal.
    induction IH as [|[key x] fields Hx _ IHfields]; [done|].
    cbn [map omap list_omap fst snd] in *. rewrite Hx.
    f_equal. exact IHfields.
Qed.

Section WithPlatform.
Context {P : Platform}.

(** X7 (envelope round trip).  [decryptEnvelope] undoes [encryptEnvelope]
    under the same session, up to what [JSON.stringify] keeps of the
    envelope: the result is the JSON tree of the value, and a value that
    is a JSON tree comes back as it was.  (The tree has distinct,
    non-numeric property names and safe integers.) *)
Theorem envelope_round_trip {laws : PlatformLaws P}
    (iv : Buffer) (v : value) (j : json) (session : Session) :
  toJSON v = Some j ->
  wf_json j = true ->
  exists e,
    encryptEnvelope iv v session = Ok e
    /\ decryptEnvelope e session = Ok j
    /\ encryptEnvelope iv (embed j) session = Ok e.
Proof.
  intros Hv Hwf. unfold encryptEnvelope, JSON_stringify.
  rewrite Hv, toJSON_embed. cbn [fmap option_fmap option_map cipher_text rbind].
  eexists. split; [reflexivity|]. split; [|reflexivity].
  unfold decryptEnvelope. cbn [ciphertext signature].
  rewrite decide_False by (intros H; by apply H).
  rewrite decrypt_encrypt. cbn [rbind]. by apply parse_write.
Qed.

(** X8 (content round trip).  [decryptContent] undoes [encryptContent]
    when the key reaches it as the string of the bytes that
    [encryptContent] was given: the encrypted content, as a parsed
    envelope carries it, decrypts to the JSON tree of the content. *)
Theorem content_round_trip {laws : PlatformLaws P}
    (iv : Buffer) (content : value) (j : json) (key : string) :
  toJSON content = Some j ->
  wf_json j = true ->
  exists c,
    encryptContent iv content (list_byte_of_string key)
    = Ok (VObject [("iv", VString (base64 iv)); ("ciphertext", VString c)])
    /\ decryptContent (parsed_content (base64 iv) c) (Some (JString key)) = Ok j.
Proof.
  intros Hv Hwf. unfold encryptContent, JSON_stringify.
  rewrite Hv. cbn [fmap option_fmap option_map cipher_text rbind].
  eexists. split; [reflexivity|].
  unfold decryptContent, parsed_content.
  cbn [createDecipher rbind get_opt get property].
  rewrite decide_False by done. rewrite decide_True by done.
  cbn [rbind decipher_text]. rewrite decrypt_encrypt. cbn [rbind].
  by apply parse_write.
Qed.

(** X9 (what [encryptMessage] does to the store).  Whether it returns an
    envelope or throws, [encryptMessage] leaves the sessions of all other
    peers as they are, keeps an existing session of the recipient, and
    otherwise stores the session it created; the number of active
    sessions grows by one for a new recipient and not at all for a known
    one. *)
Theorem encryptMessage_store rnd (store : gmap string Session) recipient message messageType :
  let store' := (encryptMessage rnd store recipient message messageType).2 in
  (forall other, other <> recipient -> store' !! other = store !! other)
  /\ store' !! recipient = Some (default (createSession rnd recipient) (store !! recipient))
  /\ activeSessions store'
     = match store !! recipient with
       | Some _ => activeSessions store
       | None => S (activeSessions store)
       end.
Proof.
  unfold encryptMessage, getOrCreateSession, activeSessions.
  destruct (store !! recipient) as [session|] eqn:Hs; cbn [snd default].
  - repeat split; done.
  - repeat split.
    + intros other Hne. by apply lookup_insert_ne.
    + apply lookup_insert_eq.
    + by apply map_size_insert_None.
Qed.

(** X10 (no session, no decryption).  An envelope sealed for one peer is
    refused when it is presented as coming from another peer with whom no
    session exists: [encryptMessage] does not create a session for
    anybody but its recipient, and [decryptMessage] does not create one
    at all. *)
Theorem unknown_sender_rejected rnd (store : gmap string Session)
    recipient message messageType e store' sender (any : EncryptedEnvelope) :
  encryptMessage rnd store recipient message messageType = (Ok e, store') ->
  sender <> recipient ->
  store !! sender = None ->
  decryptMessage store' sender e = Throw (Error "No session found with sender")
  /\ decryptMessage store' sender any = Throw (Error "No session found with sender").
Proof.
  intros Henc Hne Hnone.
  pose proof (encryptMessage_store rnd store recipient message messageType) as (Hother & _).
  rewrite Henc in Hother. cbn [snd] in Hother.
  unfold decryptMessage, getSession. by rewrite (Hother sender Hne), Hnone.
Qed.

End WithPlatform.

Import Toy.

Lemma envelope_round_trip_witness :
  let v := VObject [("to", VString "peer"); ("key", VBuffer [x01; x02]);
                    ("skipped", VUndefined)] in
  let j := JObject [("to", JString "peer"); ("key", Buffer_toJSON [x01; x02])] in
  let session := createSession (P := toy) draws "peer" in
  exists e,
    encryptEnvelope (P := toy) [x04] v session = Ok e
    /\ decryptEnvelope (P := toy) e session = Ok j
    /\ encryptEnvelope (P := toy) [x04] (embed j) session = Ok e.
Proof.
  intros v j session.
  apply (envelope_round_trip (P := toy) (laws := toy_laws) [x04] v j session);
    reflexivity.
Defined.

Lemma content_round_trip_witness :
  exists c,
    encryptContent (P := toy) [x03] (VString "hi") (list_byte_of_string "m2")
    = Ok (VObject [("iv", VString (base64 (Platform := toy) [x03]));
                   ("ciphertext", VString c)])
    /\ decryptContent (P := toy) (parsed_content (base64 (Platform := toy) [x03]) c)
         (Some (JString "m2"))
       = Ok (JString "hi").
Proof.
  apply (content_round_trip (P := toy) (laws := toy_laws) [x03] (VString "hi")
           (JString "hi") "m2"); reflexivity.
Defined.

Lemma unknown_sender_rejected_witness :
  decryptMessage (P := toy) sample_store "other" sample_envelope
  = Throw (Error "No session found with sender")
  /\ decryptMessage (P := toy) sample_store "other"
       {| iv := VNull; ciphertext := ""; signature := "" |}
     = Throw (Error "No session found with sender").
Proof.
  apply (unknown_sender_rejected (P := toy) draws ∅ "peer" (VString "hi") "text"
           sample_envelope sample_store "other").
  - vm_compute. reflexivity.
  - discriminate.
  - reflexivity.
Defined.

End CryptoMoreFacts.

(** ** Sending through the client *)

Module ClientFacts.
Import Buf Transport TransportMore Crypto CryptoMore TransportSenders Client.
Import BufFacts TransportFacts TransportMoreFacts CryptoFacts CryptoMoreFacts.

Section WithPlatform.
Context {P : Platform}.

(** [JSON.stringify] of an object is a text. *)
Lemma Buffer_from_object (fields : list (string * value)) :
  Buffer_from (JSON_stringify (VObject fields)) = Ok (json_bytes (VObject fields)).
Proof. reflexivity. Qed.

Lemma send_json_object now generated tm type (fields : list (string * value)) :
  send_json now generated tm type (VObject fields)
  = sendMessage now generated tm type (json_bytes (VObject fields)) None.
Proof. reflexivity. Qed.

(** A frame written by one manager and read by another. *)
Lemma read_of_sent (m : Message) rx :
  valid_frame m -> buffer rx = [] ->
  handleIncomingData rx (wire_layout m) = Some (set_buffer rx [], handleMessage m).
Proof.
  intros Hv Hb. apply handleIncomingData_complete; [done|]. by rewrite Hb.
Qed.

(** X11 (typed senders).  Each typed sender of the transport manager
    ([sendTextMessage], [sendMediaMessage], [sendGroupMessage],
    [sendPresenceUpdate], [sendTypingIndicator], [sendReadReceipt],
    [sendHeartbeat]) writes, on a connected manager and when the JSON text
    of its object fits a frame, one frame with its type code and the bytes
    of that text; a transport manager that reads this frame emits exactly
    one event for it, the one of that type, with the decoded message. *)
Theorem typed_senders_routed now generated tm r type payload event rx :
  typed_send now generated tm r type payload event ->
  isConnected tm = true -> is_Some (socket tm) ->
  buffer rx = [] ->
  let m := {| msg_type := type; msg_id := generated;
              msg_timestamp := now / 1000; msg_data := json_bytes payload |} in
  valid_frame m ->
  exists log,
    r = (Ok generated, socket_write tm (wire_layout m), log)
    /\ handleIncomingData rx (wire_layout m) = Some (set_buffer rx [], handleMessage m)
    /\ emitted (handleMessage m) = [(event, MsgArg m)].
Proof.
  intros Hsend Hc Hs Hrx m Hv.
  assert (exists log, r = (Ok generated, socket_write tm (wire_layout m), log)) as [log Hr].
  { destruct Hsend; eexists;
      unfold TransportSenders.sendTextMessage, sendMediaMessage, sendGroupMessage,
        sendPresenceUpdate, sendTypingIndicator, sendReadReceipt, sendHeartbeat;
      rewrite send_json_object; by apply sendMessage_writes. }
  exists log. split; [exact Hr|]. split; [by apply read_of_sent|].
  destruct Hsend; reflexivity.
Qed.






End WithPlatform.

Import Toy ToyFacts Samples.

Lemma typed_senders_routed_witness :
  let tm := connected new_TransportManager in
  let payload := VObject [("timestamp", VNumber 7)] in
  let m := {| msg_type := 8; msg_id := 42; msg_timestamp := 5;
              msg_data := json_bytes (P := toy) payload |} in
  exists log,
    sendHeartbeat (P := toy) 7 5000 42 tm
    = (Ok 42, socket_write tm (wire_layout m), log)
    /\ handleIncomingData new_TransportManager (wire_layout m)
       = Some (set_buffer new_TransportManager [], handleMessage m)
    /\ emitted (handleMessage m) = [("heartbeat:response", MsgArg m)].
Proof.
  intros tm payload m.
  apply (typed_senders_routed (P := toy) 5000 42 tm _ 8 payload "heartbeat:response"
           new_TransportManager (send_heartbeat 5000 42 tm 7)).
  - reflexivity.
  - by eexists.
  - reflexivity.
  - vm_compute. repeat split; discriminate.
Defined.




End ClientFacts.

(** ** Groups *)

Module GroupsFacts.
Import Groups.

Lemma lookup_group_Ok gm groupId g :
  lookup_group gm groupId = Ok g ->
  isAuthenticated gm = true /\ groups gm !! groupId = Some g.
Proof.
  unfold lookup_group. destruct (isAuthenticated gm); [|discriminate].
  destruct (groups gm !! groupId); [|discriminate]. by intros [= ->].
Qed.

Lemma lookup_group_found gm groupId g :
  isAuthenticated gm = true -> groups gm !! groupId = Some g ->
  lookup_group gm groupId = Ok g.
Proof. intros Ha Hg. unfold lookup_group. by rewrite Ha, Hg. Qed.

(** X15 (a call that throws changes nothing).  Every method of the
    manager makes its checks before it touches the maps: when a call
    throws, the manager is as it was before the call, and nothing was
    notified or emitted. *)
Theorem failed_call_changes_nothing gm (c : call) e gm' log :
  perform gm c = (Some e, gm', log) -> gm' = gm /\ log = [].
Proof.
  destruct c; cbn [perform];
    unfold createGroup, updateGroupInfo, addParticipants, removeParticipants,
      promoteToAdmin, demoteFromAdmin, leaveGroup, deleteGroup;
    intros Hcall; repeat case_match; simplify_eq; done.
Qed.

Lemma failed_call_changes_nothing_witness :
  let gm := (perform (new_GroupManager "me") (CreateGroup "G1" 5 "friends" ["ann"])).1.2 in
  (perform gm (PromoteToAdmin "G1" "bob")).1.2 = gm
  /\ (perform gm (PromoteToAdmin "G1" "bob")).2 = [].
Proof.
  intros gm.
  apply (failed_call_changes_nothing gm (PromoteToAdmin "G1" "bob")
           (Error "Participant not in group")).
  vm_compute. reflexivity.
Defined.

(** *** The index and the admins *)

Lemma consistent_set_both gm groupId (g' : Group) :
  consistent gm -> admins g' ⊆ participants g' ->
  consistent (set_maps gm (<[groupId := g']> (groups gm))
                          (<[groupId := participants g']> (groupParticipants gm))).
Proof.
  intros [Hidx Hadm] Hsub. split; cbn [set_maps groups groupParticipants].
  - intros k. destruct (decide (groupId = k)) as [->|Hne].
    + by rewrite !lookup_insert_eq.
    + rewrite !lookup_insert_ne by done. apply Hidx.
  - intros k g. destruct (decide (groupId = k)) as [->|Hne].
    + rewrite lookup_insert_eq. by intros [= <-].
    + rewrite lookup_insert_ne by done. apply Hadm.
Qed.

Lemma consistent_set_group gm groupId (g g' : Group) :
  consistent gm -> groups gm !! groupId = Some g ->
  participants g' = participants g -> admins g' ⊆ participants g' ->
  consistent (set_maps gm (<[groupId := g']> (groups gm)) (groupParticipants gm)).
Proof.
  intros [Hidx Hadm] Hg Hps Hsub. split; cbn [set_maps groups groupParticipants].
  - intros k. destruct (decide (groupId = k)) as [<-|Hne].
    + rewrite lookup_insert_eq, Hidx, Hg. simpl. by rewrite Hps.
    + rewrite lookup_insert_ne by done. apply Hidx.
  - intros k g0. destruct (decide (groupId = k)) as [<-|Hne].
    + rewrite lookup_insert_eq. by intros [= <-].
    + rewrite lookup_insert_ne by done. apply Hadm.
Qed.

Lemma consistent_delete gm groupId :
  consistent gm ->
  consistent (set_maps gm (delete groupId (groups gm))
                          (delete groupId (groupParticipants gm))).
Proof.
  intros [Hidx Hadm]. split; cbn [set_maps groups groupParticipants].
  - intros k. destruct (decide (groupId = k)) as [<-|Hne].
    + by rewrite !lookup_delete_eq.
    + rewrite !lookup_delete_ne by done. apply Hidx.
  - intros k g. destruct (decide (groupId = k)) as [<-|Hne].
    + by rewrite lookup_delete_eq.
    + rewrite lookup_delete_ne by done. apply Hadm.
Qed.

Lemma filter_subseteq_mono (P : string -> Prop) `{!forall x, Decision (P x)}
    (l k : list string) :
  l ⊆ k -> filter P l ⊆ filter P k.
Proof.
  intros Hsub x [HP Hx]%list_elem_of_filter. apply list_elem_of_filter. split; [done|].
  by apply Hsub.
Qed.

(** One call keeps the two properties. *)
Lemma perform_consistent gm (c : call) :
  consistent gm -> keeps_members c -> consistent (perform gm c).1.2.
Proof.
  intros Hgm Hkeep. pose proof Hgm as [Hidx Hadm].
  destruct c; cbn [perform];
    unfold createGroup, updateGroupInfo, addParticipants, removeParticipants,
      promoteToAdmin, demoteFromAdmin, leaveGroup, deleteGroup.
  - (* createGroup *)
    destruct (negb (isAuthenticated gm)); [done|]. cbn [fst snd].
    apply (consistent_set_both gm groupId); [done|]. cbn [admins participants].
    set_solver.
  - (* updateGroupInfo *)
    destruct (lookup_group gm groupId) as [g|e] eqn:Hl; [|done].
    apply lookup_group_Ok in Hl as [_ Hg]. case_decide; [done|]. cbn [fst snd].
    destruct Hkeep as [Hps Has].
    apply (consistent_set_group gm groupId g); [done|done| |].
    + unfold assign. cbn [participants]. by rewrite Hps.
    + unfold assign. cbn [participants admins]. rewrite Hps, Has. cbn [default].
      by apply (Hadm groupId).
  - (* addParticipants *)
    destruct (lookup_group gm groupId) as [g|e] eqn:Hl; [|done].
    apply lookup_group_Ok in Hl as [_ Hg].
    destruct (bool_decide (phoneNumber gm ∉ admins g)
              && onlyAdminsCanAddParticipants (settings g)); [done|]. cbn [fst snd].
    apply (consistent_set_both gm groupId); [done|]. cbn [set_members admins participants].
    pose proof (Hadm groupId g Hg). set_solver.
  - (* removeParticipants *)
    destruct (lookup_group gm groupId) as [g|e] eqn:Hl; [|done].
    apply lookup_group_Ok in Hl as [_ Hg]. case_decide; [done|]. cbn [fst snd].
    apply (consistent_set_both gm groupId); [done|]. cbn [set_members admins participants].
    apply filter_subseteq_mono, (Hadm groupId g Hg).
  - (* promoteToAdmin *)
    destruct (lookup_group gm groupId) as [g|e] eqn:Hl; [|done].
    apply lookup_group_Ok in Hl as [_ Hg].
    case_decide; [done|]. case_decide as Hin; [done|]. cbn [fst snd].
    apply (consistent_set_group gm groupId g); [done|done|done|].
    cbn [set_members admins participants].
    pose proof (Hadm groupId g Hg). case_decide; set_solver.
  - (* demoteFromAdmin *)
    destruct (lookup_group gm groupId) as [g|e] eqn:Hl; [|done].
    apply lookup_group_Ok in Hl as [_ Hg].
    case_decide; [done|]. case_decide; [done|]. case_decide; [done|]. cbn [fst snd].
    apply (consistent_set_group gm groupId g); [done|done|done|].
    cbn [set_members admins participants].
    pose proof (Hadm groupId g Hg) as Hsub.
    intros x [_ Hx]%list_elem_of_filter. by apply Hsub.
  - (* leaveGroup *)
    destruct (lookup_group gm groupId) as [g|e] eqn:Hl; [|done].
    apply lookup_group_Ok in Hl as [_ Hg].
    pose proof (filter_subseteq_mono (fun p => p <> phoneNumber gm) _ _
                  (Hadm groupId g Hg)) as Hsub.
    case_decide.
    + destruct (filter _ (admins g)) as [|a as_] eqn:Has.
      * destruct (filter _ (participants g)) as [|p ps] eqn:Hps; cbn [fst snd].
        -- by apply consistent_delete.
        -- apply (consistent_set_both gm groupId); [done|].
           cbn [set_members admins participants]. set_solver.
      * cbn [fst snd]. apply (consistent_set_both gm groupId); [done|].
        cbn [set_members admins participants]. exact Hsub.
    + cbn [fst snd]. apply (consistent_set_both gm groupId); [done|].
      by cbn [set_members admins participants].
  - (* deleteGroup *)
    destruct (lookup_group gm groupId) as [g|e] eqn:Hl; [|done].
    case_decide; [done|]. cbn [fst snd]. by apply consistent_delete.
Qed.

Lemma new_GroupManager_consistent phone : consistent (new_GroupManager phone).
Proof.
  split; cbn [new_GroupManager groups groupParticipants].
  - intros k. by rewrite !lookup_empty.
  - intros k g. by rewrite lookup_empty.
Qed.

Lemma perform_all_consistent (cs : list call) : forall gm,
  consistent gm -> Forall keeps_members cs -> consistent (perform_all gm cs).
Proof.
  induction cs as [|c cs IH]; intros gm Hgm Hcs; [done|].
  inversion Hcs; subst. cbn [perform_all]. apply IH; [|done].
  by apply perform_consistent.
Qed.

Lemma isInGroup_consistent gm groupId p :
  consistent gm ->
  isInGroup gm groupId p = true
  <-> exists g, groups gm !! groupId = Some g /\ p ∈ participants g.
Proof.
  intros [Hidx _]. unfold isInGroup. rewrite Hidx.
  destruct (groups gm !! groupId) as [g|]; simpl.
  - rewrite bool_decide_eq_true. split; [by exists g|]. by intros (g' & [= <-] & Hp).
  - split; [done|]. by intros (g' & [=] & _).
Qed.

(** X16 (the index follows the groups).  After any sequence of calls on a
    new manager, as long as no [updateGroupInfo] overwrites
    [participants] or [admins]: [getGroupParticipants] and [isInGroup]
    answer with the participants of the group object that [getGroupInfo]
    returns, for exactly the groups that exist, and whoever [isAdmin]
    accepts is in the group. *)
Theorem index_follows_groups (phone : string) (cs : list call) :
  Forall keeps_members cs ->
  let gm := perform_all (new_GroupManager phone) cs in
  (forall groupId,
      groupParticipants gm !! groupId = participants <$> (groups gm !! groupId))
  /\ (forall groupId p,
        isInGroup gm groupId p = true
        <-> exists g, groups gm !! groupId = Some g /\ p ∈ participants g)
  /\ (forall groupId p, isAdmin gm groupId p = true -> isInGroup gm groupId p = true).
Proof.
  intros Hcs gm.
  assert (consistent gm) as Hgm
    by (apply perform_all_consistent; [apply new_GroupManager_consistent|done]).
  split; [apply Hgm|]. split; [intros; by apply isInGroup_consistent|].
  intros groupId p. unfold isAdmin.
  destruct (groups gm !! groupId) as [g|] eqn:Hg; [|done].
  rewrite bool_decide_eq_true. intros Hp.
  apply isInGroup_consistent; [done|]. exists g. split; [done|].
  destruct Hgm as [_ Hadm]. by apply (Hadm groupId g Hg).
Qed.

Lemma index_follows_groups_witness :
  let cs := [CreateGroup "G1" 5 "friends" ["ann"; "bob"];
             PromoteToAdmin "G1" "bob";
             UpdateGroupInfo 6 "G1"
               {| new_id := None; new_name := Some "family"; new_description := None;
                  new_owner := None; new_participants := None; new_admins := None;
                  new_created := None; new_settings := None; new_updated := None |};
             LeaveGroup "G1"] in
  let gm := perform_all (new_GroupManager "me") cs in
  (forall groupId,
      groupParticipants gm !! groupId = participants <$> (groups gm !! groupId))
  /\ (forall groupId p,
        isInGroup gm groupId p = true
        <-> exists g, groups gm !! groupId = Some g /\ p ∈ participants g)
  /\ (forall groupId p, isAdmin gm groupId p = true -> isInGroup gm groupId p = true).
Proof.
  intros cs. apply (index_follows_groups "me" cs).
  repeat constructor.
Defined.

(** X17 (what [updateGroupInfo] does not refresh).  When an admin passes
    a [participants] list to [updateGroupInfo], the group object that
    [getGroupInfo] returns carries the new list, while
    [getGroupParticipants] and [isInGroup] go on answering with the list
    from before the call. *)
Theorem update_leaves_index_stale now gm groupId (u : Updates) (g : Group)
    (ps : list string) :
  isAuthenticated gm = true ->
  groups gm !! groupId = Some g ->
  phoneNumber gm ∈ admins g ->
  new_participants u = Some ps ->
  exists g' gm' log,
    updateGroupInfo now gm groupId u = (Ok g', gm', log)
    /\ getGroupInfo gm' groupId = Ok g'
    /\ participants g' = ps
    /\ getGroupParticipants gm' groupId = getGroupParticipants gm groupId
    /\ forall p, isInGroup gm' groupId p = isInGroup gm groupId p.
Proof.
  intros Ha Hg Hadm Hps. unfold updateGroupInfo.
  rewrite (lookup_group_found gm groupId g Ha Hg).
  rewrite decide_False by (intros Hn; by apply Hn).
  do 3 eexists. split; [reflexivity|]. split; [|split; [|split]].
  - apply lookup_group_found; [done|]. cbn [set_maps groups]. apply lookup_insert_eq.
  - unfold assign. cbn [participants]. by rewrite Hps.
  - reflexivity.
  - reflexivity.
Qed.

Lemma update_leaves_index_stale_witness :
  let gm := (perform (new_GroupManager "me") (CreateGroup "G1" 5 "friends" ["ann"])).1.2 in
  let u := {| new_id := None; new_name := None; new_description := None;
              new_owner := None; new_participants := Some ["me"; "carl"];
              new_admins := None; new_created := None; new_settings := None;
              new_updated := None |} in
  exists g' gm' log,
    updateGroupInfo 6 gm "G1" u = (Ok g', gm', log)
    /\ getGroupInfo gm' "G1" = Ok g'
    /\ participants g' = ["me"; "carl"]
    /\ getGroupParticipants gm' "G1" = getGroupParticipants gm "G1"
    /\ forall p, isInGroup gm' "G1" p = isInGroup gm "G1" p.
Proof.
  intros gm u.
  eapply (update_leaves_index_stale 6 gm "G1" u).
  - reflexivity.
  - vm_compute. reflexivity.
  - apply list_elem_of_here.
  - reflexivity.
Defined.

(** *** Leaving *)


Lemma isInGroup_insert gm gs gps groupId (ps : list string) p :
  isInGroup (set_maps gm gs (<[groupId := ps]> gps)) groupId p = bool_decide (p ∈ ps).
Proof. unfold isInGroup. cbn [set_maps groupParticipants]. by rewrite lookup_insert_eq. Qed.

Lemma isAdmin_insert gm gs gps groupId (g : Group) p :
  isAdmin (set_maps gm (<[groupId := g]> gs) gps) groupId p = bool_decide (p ∈ admins g).
Proof. unfold isAdmin. cbn [set_maps groups]. by rewrite lookup_insert_eq. Qed.



(** *** Adding and removing *)

Lemma filter_all_out {A} (P : A -> Prop) `{!forall x, Decision (P x)} (l : list A) :
  (forall x, x ∈ l -> ~ P x) -> filter P l = [].
Proof.
  induction l as [|x l IH]; intros Hall; [done|].
  rewrite filter_cons_False by (apply Hall, list_elem_of_here).
  apply IH. intros y Hy. apply Hall. by apply list_elem_of_further.
Qed.


Lemma addParticipants_Ok gm groupId ps g1 gm1 log1 :
  addParticipants gm groupId ps = (Ok g1, gm1, log1) ->
  exists g,
    isAuthenticated gm = true /\ groups gm !! groupId = Some g
    /\ (bool_decide (phoneNumber gm ∉ admins g)
        && onlyAdminsCanAddParticipants (settings g) = false)
    /\ g1 = set_members g (owner g)
              (participants g ++ filter (fun p => p ∉ participants g) ps) (admins g)
    /\ gm1 = set_maps gm (<[groupId := g1]> (groups gm))
               (<[groupId := participants g1]> (groupParticipants gm))
    /\ log1 = [NotifyUpdate g1 "participants_added"
                 (filter (fun p => p ∉ participants g) ps);
               EmitGroup "group:updated" g1].
Proof.
  unfold addParticipants. destruct (lookup_group gm groupId) as [g|] eqn:Hl; [|done].
  apply lookup_group_Ok in Hl as [Ha Hg].
  destruct (bool_decide _ && _) eqn:Hperm; [done|].
  intros [= <- <- <-]. by exists g.
Qed.

(** X19 ([addParticipants] twice).  A successful [addParticipants]
    appends to the participants those of the given numbers that are not
    participants yet, in the order given; the same call made again
    succeeds, adds nobody, leaves the manager as it is and notifies an
    empty list of added participants. *)
Theorem addParticipants_twice gm groupId ps g1 gm1 log1 :
  addParticipants gm groupId ps = (Ok g1, gm1, log1) ->
  (forall g, groups gm !! groupId = Some g ->
     participants g1 = participants g ++ filter (fun p => p ∉ participants g) ps)
  /\ getGroupParticipants gm1 groupId = participants g1
  /\ (forall p, p ∈ ps -> isInGroup gm1 groupId p = true)
  /\ addParticipants gm1 groupId ps
     = (Ok g1, gm1, [NotifyUpdate g1 "participants_added" []; EmitGroup "group:updated" g1]).
Proof.
  intros (g & Ha & Hg & Hperm & -> & -> & ->)%addParticipants_Ok.
  set (new := filter (fun p => p ∉ participants g) ps).
  assert (forall p, p ∈ ps -> p ∈ participants g ++ new) as Hin.
  { intros p Hp. apply elem_of_app.
    destruct (decide (p ∈ participants g)) as [|Hn]; [by left|right].
    by apply list_elem_of_filter. }
  split. { intros g0 Hg0. by simplify_eq. }
  split. { unfold getGroupParticipants. cbn [set_maps groupParticipants].
           by rewrite lookup_insert_eq. }
  split. { intros p Hp. rewrite isInGroup_insert. cbn [set_members participants].
           by apply bool_decide_eq_true_2, Hin. }
  unfold addParticipants.
  rewrite (lookup_group_found _ groupId
             (set_members g (owner g) (participants g ++ new) (admins g)))
    by (done || apply lookup_insert_eq).
  cbn [set_members set_maps phoneNumber admins settings participants owner
       groups groupParticipants group_id name description created updated].
  rewrite Hperm.
  rewrite (filter_all_out (fun p => p ∉ participants g ++ new) ps)
    by (intros p Hp Hn; by apply Hn, Hin).
  by rewrite app_nil_r, !insert_insert_eq.
Qed.

Lemma addParticipants_twice_witness :
  let gm := (perform (new_GroupManager "me") (CreateGroup "G1" 5 "friends" ["ann"])).1.2 in
  let ps := ["bob"; "ann"; "carl"] in
  let '(r, gm1, _) := addParticipants gm "G1" ps in
  exists g1, r = Ok g1
  /\ (forall g, groups gm !! "G1" = Some g ->
        participants g1 = participants g ++ filter (fun p => p ∉ participants g) ps)
  /\ getGroupParticipants gm1 "G1" = participants g1
  /\ (forall p, p ∈ ps -> isInGroup gm1 "G1" p = true)
  /\ addParticipants gm1 "G1" ps
     = (Ok g1, gm1, [NotifyUpdate g1 "participants_added" []; EmitGroup "group:updated" g1]).
Proof.
  intros gm ps.
  destruct (addParticipants gm "G1" ps) as [[r gm1] log1] eqn:Hcall.
  destruct r as [g1|e]; [|vm_compute in Hcall; discriminate].
  exists g1. split; [reflexivity|].
  exact (addParticipants_twice gm "G1" ps g1 gm1 log1 Hcall).
Defined.

(** X20 ([addParticipants] and duplicates).  If the participants of the
    group and the numbers given are both free of duplicates, so are the
    participants after [addParticipants]. *)
Theorem addParticipants_NoDup gm groupId ps g g1 gm1 log1 :
  groups gm !! groupId = Some g ->
  NoDup (participants g) ->
  NoDup ps ->
  addParticipants gm groupId ps = (Ok g1, gm1, log1) ->
  NoDup (participants g1) /\ NoDup (getGroupParticipants gm1 groupId).
Proof.
  intros Hg Hnd Hps (g0 & Ha & Hg0 & Hperm & -> & -> & ->)%addParticipants_Ok.
  simplify_eq.
  unfold getGroupParticipants. cbn [set_maps groupParticipants].
  rewrite lookup_insert_eq. cbn [default set_members participants].
  assert (NoDup (participants g ++ filter (fun p => p ∉ participants g) ps)) as H.
  { apply NoDup_app. split; [done|]. split; [|by apply NoDup_filter].
    intros p Hp [Hn _]%list_elem_of_filter. by apply Hn. }
  by split.
Qed.

Lemma addParticipants_NoDup_witness :
  let gm := (perform (new_GroupManager "me") (CreateGroup "G1" 5 "friends" ["ann"])).1.2 in
  let '(r, gm1, _) := addParticipants gm "G1" ["bob"; "ann"] in
  exists g1, r = Ok g1
  /\ NoDup (participants g1) /\ NoDup (getGroupParticipants gm1 "G1").
Proof.
  intros gm.
  destruct (addParticipants gm "G1" ["bob"; "ann"]) as [[r gm1] log1] eqn:Hcall.
  destruct r as [g1|e]; [|vm_compute in Hcall; discriminate].
  exists g1. split; [reflexivity|].
  eapply (addParticipants_NoDup gm "G1" ["bob"; "ann"] _ g1 gm1 log1).
  - vm_compute. reflexivity.
  - cbn [participants]. apply (bool_decide_unpack _); vm_compute; exact I.
  - apply (bool_decide_unpack _); vm_compute; exact I.
  - exact Hcall.
Defined.

(** X21 ([addParticipants] with a number given twice).  The filter of
    [addParticipants] compares with the participants before the call
    only: a number that is not a participant and is given twice is
    pushed twice, so the participants then hold it twice. *)
Theorem addParticipants_pushes_duplicates gm groupId p g g1 gm1 log1 :
  groups gm !! groupId = Some g ->
  p ∉ participants g ->
  addParticipants gm groupId [p; p] = (Ok g1, gm1, log1) ->
  participants g1 = participants g ++ [p; p]
  /\ getGroupParticipants gm1 groupId = participants g ++ [p; p]
  /\ ~ NoDup (participants g1).
Proof.
  intros Hg Hp (g0 & Ha & Hg0 & Hperm & -> & -> & ->)%addParticipants_Ok.
  simplify_eq.
  unfold getGroupParticipants. cbn [set_maps groupParticipants].
  rewrite lookup_insert_eq. cbn [default set_members participants].
  rewrite !filter_cons_True by done. rewrite filter_nil.
  repeat split.
  intros [_ [_ Hnd]]%NoDup_app.
  apply NoDup_cons in Hnd as [Hnd _]. apply Hnd, list_elem_of_here.
Qed.

Lemma addParticipants_pushes_duplicates_witness :
  let gm := (perform (new_GroupManager "me") (CreateGroup "G1" 5 "friends" ["ann"])).1.2 in
  let '(r, gm1, _) := addParticipants gm "G1" ["bob"; "bob"] in
  exists g1, r = Ok g1
  /\ participants g1 = ["me"; "ann"] ++ ["bob"; "bob"]
  /\ getGroupParticipants gm1 "G1" = ["me"; "ann"] ++ ["bob"; "bob"]
  /\ ~ NoDup (participants g1).
Proof.
  intros gm.
  destruct (addParticipants gm "G1" ["bob"; "bob"]) as [[r gm1] log1] eqn:Hcall.
  destruct r as [g1|e]; [|vm_compute in Hcall; discriminate].
  exists g1. split; [reflexivity|].
  eapply (addParticipants_pushes_duplicates gm "G1" "bob"
            {| group_id := "G1"; name := "friends"; description := ""; owner := "me";
               participants := ["me"; "ann"]; admins := ["me"]; created := 5;
               settings := {| onlyAdminsCanSendMessages := false;
                              onlyAdminsCanEditInfo := false;
                              onlyAdminsCanAddParticipants := false |};
               updated := None |} g1 gm1 log1).
  - vm_compute. reflexivity.
  - cbn [participants]. apply (bool_decide_unpack _); vm_compute; exact I.
  - exact Hcall.
Defined.

Lemma removeParticipants_Ok gm groupId ps g' gm' log :
  removeParticipants gm groupId ps = (Ok g', gm', log) ->
  exists g,
    isAuthenticated gm = true /\ groups gm !! groupId = Some g
    /\ phoneNumber gm ∈ admins g
    /\ g' = set_members g (owner g) (filter (fun p => p ∉ ps) (participants g))
              (filter (fun a => a ∉ ps) (admins g))
    /\ gm' = set_maps gm (<[groupId := g']> (groups gm))
               (<[groupId := participants g']> (groupParticipants gm))
    /\ log = [NotifyUpdate g' "participants_removed" ps; EmitGroup "group:updated" g'].
Proof.
  unfold removeParticipants. destruct (lookup_group gm groupId) as [g|] eqn:Hl; [|done].
  apply lookup_group_Ok in Hl as [Ha Hg].
  case_decide as Hadm; [done|].
  intros [= <- <- <-]. by exists g.
Qed.

(** X22 ([removeParticipants]).  After a successful [removeParticipants]
    none of the removed numbers is a participant or an admin of the
    group, by the group object and by [isInGroup] and [isAdmin] alike,
    and the loop of the notification that the call makes sends to none of
    them: the removed are not told.  The owner is not changed, also when
    the owner is among the removed. *)
Theorem removeParticipants_removes gm groupId ps g' gm' log :
  removeParticipants gm groupId ps = (Ok g', gm', log) ->
  log = [NotifyUpdate g' "participants_removed" ps; EmitGroup "group:updated" g']
  /\ (forall g, groups gm !! groupId = Some g -> owner g' = owner g)
  /\ forall p, p ∈ ps ->
       (p ∉ participants g') /\ (p ∉ admins g')
       /\ isInGroup gm' groupId p = false /\ isAdmin gm' groupId p = false
       /\ forall delivered message q m,
            (q, m) ∈ notify_loop delivered (phoneNumber gm') message (participants g') ->
            q <> p.
Proof.
  intros (g & Ha & Hg & Hadm & -> & -> & ->)%removeParticipants_Ok.
  split; [done|]. split. { intros g0 Hg0. by simplify_eq. }
  intros p Hp. rewrite isInGroup_insert, isAdmin_insert.
  cbn [set_members participants admins set_maps phoneNumber].
  assert (p ∉ filter (fun p => p ∉ ps) (participants g)) as H1.
  { intros [Hn _]%list_elem_of_filter. by apply Hn. }
  assert (p ∉ filter (fun p => p ∉ ps) (admins g)) as H2.
  { intros [Hn _]%list_elem_of_filter. by apply Hn. }
  split; [done|]. split; [done|].
  split; [by apply bool_decide_eq_false_2|].
  split; [by apply bool_decide_eq_false_2|].
  intros delivered message q m Hq ->. apply H1. clear H1 H2.
  induction (filter (fun p => p ∉ ps) (participants g)) as [|x l IH]; cbn [notify_loop] in Hq.
  - by apply elem_of_nil in Hq.
  - case_decide.
    + apply elem_of_cons in Hq as [[= -> _]|Hq]; [apply list_elem_of_here|].
      apply list_elem_of_further. destruct (delivered x message); [by apply IH|].
      by apply elem_of_nil in Hq.
    + apply list_elem_of_further. by apply IH.
Qed.

Lemma removeParticipants_removes_witness :
  let gm := (perform (new_GroupManager "me")
               (CreateGroup "G1" 5 "friends" ["ann"; "bob"])).1.2 in
  let ps := ["ann"; "me"] in
  let '(r, gm', log) := removeParticipants gm "G1" ps in
  exists g', r = Ok g'
  /\ log = [NotifyUpdate g' "participants_removed" ps; EmitGroup "group:updated" g']
  /\ (forall g, groups gm !! "G1" = Some g -> owner g' = owner g)
  /\ forall p, p ∈ ps ->
       (p ∉ participants g') /\ (p ∉ admins g')
       /\ isInGroup gm' "G1" p = false /\ isAdmin gm' "G1" p = false
       /\ forall delivered message q m,
            (q, m) ∈ notify_loop delivered (phoneNumber gm') message (participants g') ->
            q <> p.
Proof.
  intros gm ps.
  destruct (removeParticipants gm "G1" ps) as [[r gm'] log] eqn:Hcall.
  destruct r as [g'|e]; [|vm_compute in Hcall; discriminate].
  exists g'. split; [reflexivity|].
  exact (removeParticipants_removes gm "G1" ps g' gm' log Hcall).
Defined.



(** *** Creating and deleting *)

(** X24 ([createGroup], then [deleteGroup]).  The group that
    [createGroup] returns is the one [getGroupInfo] then finds: the
    caller owns it, is its first participant and its only admin.
    [deleteGroup] by the caller then succeeds, after which
    [getGroupInfo] throws 'Group not found' and the group has no
    participants; if the id was free before, the manager is as it was
    before the two calls. *)
Theorem create_then_delete groupId now gm name ps :
  isAuthenticated gm = true ->
  exists g gm1 log1 gm2 log2,
    createGroup groupId now gm name ps = (Ok g, gm1, log1)
    /\ getGroupInfo gm1 groupId = Ok g
    /\ owner g = phoneNumber gm
    /\ getGroupParticipants gm1 groupId = phoneNumber gm :: ps
    /\ (forall p, isAdmin gm1 groupId p = true <-> p = phoneNumber gm)
    /\ deleteGroup gm1 groupId = (Ok tt, gm2, log2)
    /\ getGroupInfo gm2 groupId = Throw (Error "Group not found")
    /\ getGroupParticipants gm2 groupId = []
    /\ (forall p, isInGroup gm2 groupId p = false)
    /\ (groups gm !! groupId = None -> groupParticipants gm !! groupId = None ->
        gm2 = gm).
Proof.
  intros Ha. unfold createGroup. rewrite Ha. cbn [negb].
  do 5 eexists. split; [reflexivity|].
  split. { apply lookup_group_found; [done|]. apply lookup_insert_eq. }
  split; [done|].
  split. { unfold getGroupParticipants. cbn [set_maps groupParticipants].
           by rewrite lookup_insert_eq. }
  split. { intros p. rewrite isAdmin_insert. cbn [admins].
           rewrite bool_decide_eq_true. apply list_elem_of_singleton. }
  unfold deleteGroup, getGroupInfo.
  erewrite lookup_group_found; [|done|apply lookup_insert_eq].
  cbn [owner set_maps phoneNumber groups groupParticipants participants].
  rewrite decide_False by (intros Hn; by apply Hn).
  split; [reflexivity|].
  unfold lookup_group, getGroupParticipants, isInGroup.
  cbn [set_maps isAuthenticated groups groupParticipants].
  rewrite Ha, !lookup_delete_eq. cbn [negb default].
  repeat split.
  intros H1 H2. rewrite !delete_insert_eq, !delete_id by done.
  by destruct gm.
Qed.

Lemma create_then_delete_witness :
  let gm := new_GroupManager "me" in
  exists g gm1 log1 gm2 log2,
    createGroup "G1" 5 gm "friends" ["ann"] = (Ok g, gm1, log1)
    /\ getGroupInfo gm1 "G1" = Ok g
    /\ owner g = phoneNumber gm
    /\ getGroupParticipants gm1 "G1" = phoneNumber gm :: ["ann"]
    /\ (forall p, isAdmin gm1 "G1" p = true <-> p = phoneNumber gm)
    /\ deleteGroup gm1 "G1" = (Ok tt, gm2, log2)
    /\ getGroupInfo gm2 "G1" = Throw (Error "Group not found")
    /\ getGroupParticipants gm2 "G1" = []
    /\ (forall p, isInGroup gm2 "G1" p = false)
    /\ (groups gm !! "G1" = None -> groupParticipants gm !! "G1" = None ->
        gm2 = gm).
Proof.
  intros gm. apply (create_then_delete "G1" 5 gm "friends" ["ann"]). reflexivity.
Defined.

End GroupsFacts.
